(** * The accounts store of the desktop client

    A model of [app/src/lib/stores/accounts-store.ts]: the in-memory list of
    signed-in accounts, its one-time asynchronous load from the data store and
    the credential store, and the operations [getAll], [addAccount],
    [removeAccount] and [refresh].

    The store is a JavaScript object whose methods are [async] functions.
    Each method is modelled as a function on the store's state; a rejected
    promise is a [Throw] result.  The constructor starts the load and returns
    while the load is suspended at its first [await]; that suspended
    computation is the [Pending] state of the loading promise, and [resume]
    runs it up to its next [await]. *)

From Stdlib Require Import ZArith.
From stdpp Require Import base option list strings pretty gmap.

Open Scope string_scope.
Open Scope list_scope.

(** ** Errors and results *)

(** A JavaScript error value: its [name] and its [message]. *)
Record Error := mkError { errName : string; errMessage : string }.

(** The outcome of a call that may throw (or of an awaited promise that may
    reject). *)
Inductive Result (A : Type) : Type :=
| Ok (a : A)
| Throw (e : Error).
Arguments Ok {A} a.
Arguments Throw {A} e.

(** Sequencing stops at the first throw. *)
Global Instance Result_bind : MBind Result := λ A B k r,
  match r with
  | Ok a => k a
  | Throw e => Throw e
  end.

(** [try { return await r } catch (e) { return fallback }]. *)
Definition tryCatch {A} (r : Result A) (fallback : A) : A :=
  match r with
  | Ok a => a
  | Throw _ => fallback
  end.

(** [a || b] on strings: the empty string is the only falsy string. *)
Definition or_else (a b : string) : string :=
  match a with
  | EmptyString => b
  | String _ _ => a
  end.

(** [a || b] where [a] may also be [null]. *)
Definition or_else_null (a : option string) (b : string) : string :=
  match a with
  | None => b
  | Some a => or_else a b
  end.

(** ** Data model *)

(** Modelled from the spec: [EmailVisibility] is declared in [lib/api], which
    is outside this file; the store only carries its values around. *)
Inductive EmailVisibility := VisPublic | VisPrivate | VisUnset.

Record IEmail := mkEmail {
  email : string;
  verified : bool;
  primary : bool;
  visibility : EmailVisibility
}.

(** The data-only interface for storage. *)
Module IAccount.
Record t := mk {
  token : string;
  login : string;
  endpoint : string;
  emails : list IEmail;
  avatarURL : string;
  id : Z;
  name : string
}.
End IAccount.

(** Modelled from the spec: the [Account] class of [models/account] is an
    immutable value with the seven fields below, built in the order of the
    constructor calls in the store, and [withToken] gives a copy with
    another token. *)
Module Account.
Record t := mk {
  login : string;
  endpoint : string;
  token : string;
  emails : list IEmail;
  avatarURL : string;
  id : Z;
  name : string
}.

Definition withToken (a : t) (token : string) : t :=
  mk (login a) (endpoint a) token (emails a) (avatarURL a) (id a) (name a).
End Account.

(** The part of the API's user record that the store reads. *)
Record IAPIUser := mkUser {
  user_id : Z;
  user_name : string;
  avatar_url : string
}.

(** ** Collaborators *)

(** [IDataStore]: a synchronous key-value store. *)
Class IDataStore (D : Type) := {
  ds_getItem : D → string → option string;
  ds_setItem : D → string → string → D
}.

(** [ISecureStore]: the credential store.  Every call may fail, and may
    change the store whether it fails or not. *)
Class ISecureStore (S : Type) := {
  ss_getItem : S → string → string → S * Result (option string);
  ss_setItem : S → string → string → string → S * Result unit;
  ss_deleteItem : S → string → string → S * Result unit
}.

(** What [API.fromAccount(account)] answers to [fetchAccount] and
    [fetchEmails] during one operation of the store. *)
Record API := mkAPI {
  fetchAccount : Account.t → Result IAPIUser;
  fetchEmails : Account.t → Result (list IEmail)
}.

(** Functions the store calls that live outside this file: the JSON codec of
    the platform, the key derivation of [lib/auth] and the avatar resolver of
    [lib/gravatar]. *)
Class Platform := {
  JSON_parse : string → Result (list IAccount.t);
  JSON_stringify : list Account.t → string;
  (** Modelled from the spec: the credential-store key is derived
      deterministically from the login and the endpoint. *)
  keyFor : string → string → string;
  getAvatarWithEnterpriseFallback : string → string → string → string
}.

Definition getKeyForAccount `{Platform} (account : Account.t) : string :=
  keyFor (Account.login account) (Account.endpoint account).

(** Modelled from the spec: [fatalError] of [lib/fatal-error] signals a
    programming-logic violation by throwing an [Error] with the message. *)
Definition fatalError {A} (msg : string) : Result A :=
  Throw (mkError "Error" msg).

(** Reading a property of [undefined]. *)
Definition typeError (msg : string) : Error := mkError "TypeError" msg.

(** ** The store *)

(** What the store does to the outside, in order: the events it emits and
    the writes it issues to the data store. *)
Inductive Effect :=
| DidUpdate
| DidError (e : Error)
| DataSetItem (key value : string).

(** The loading promise.  While it is pending, the load is suspended in its
    loop at [await this.secureStore.getItem(...)] for the head of [todo],
    with [accountsWithTokens] holding the accounts collected so far. *)
Inductive LoadingPromise :=
| Pending (todo : list IAccount.t) (accountsWithTokens : list Account.t)
| Resolved
| Rejected (e : Error).

Record AccountsStore (D S : Type) := mkStore {
  dataStore : D;
  secureStore : S;
  accounts : list Account.t;
  loadingPromise : LoadingPromise;
  effects : list Effect
}.
Arguments mkStore {D S}.
Arguments dataStore {D S}.
Arguments secureStore {D S}.
Arguments accounts {D S}.
Arguments loadingPromise {D S}.
Arguments effects {D S}.

Section Store.
Context {D S : Type} `{!IDataStore D, !ISecureStore S, !Platform}.

Abbreviation Store := (AccountsStore D S).

Definition set_dataStore (d : D) (s : Store) : Store :=
  mkStore d (secureStore s) (accounts s) (loadingPromise s) (effects s).

Definition set_secureStore (ss : S) (s : Store) : Store :=
  mkStore (dataStore s) ss (accounts s) (loadingPromise s) (effects s).

Definition set_accounts (l : list Account.t) (s : Store) : Store :=
  mkStore (dataStore s) (secureStore s) l (loadingPromise s) (effects s).

Definition set_loadingPromise (p : LoadingPromise) (s : Store) : Store :=
  mkStore (dataStore s) (secureStore s) (accounts s) p (effects s).

Definition perform (e : Effect) (s : Store) : Store :=
  mkStore (dataStore s) (secureStore s) (accounts s) (loadingPromise s)
          (effects s ++ [e]).

Definition emitUpdate (s : Store) : Store := perform DidUpdate s.

Definition emitError (e : Error) (s : Store) : Store := perform (DidError e) s.

(** [save]: strip the tokens, write the list under [users], emit an
    update. *)
Definition save (s : Store) : Store :=
  let usersWithoutTokens :=
    (λ account, Account.withToken account "") <$> accounts s in
  let blob := JSON_stringify usersWithoutTokens in
  emitUpdate
    (perform (DataSetItem "users" blob)
       (set_dataStore (ds_setItem (dataStore s) "users" blob) s)).

(** [updatedAccount]: the per-account network refresh. *)
Definition updatedAccount (api : API) (account : Account.t)
  : Result Account.t :=
  match Account.token account with
  | EmptyString =>
      fatalError
        "Cannot update an account which doesn't have a token: [object Object]"
  | String _ _ =>
      user ← fetchAccount api account;
      emails ← fetchEmails api account;
      match emails !! 0%nat with
      | None => Throw (typeError "Cannot read property 'email' of undefined")
      | Some first =>
          let defaultEmail := or_else (email first) "" in
          let avatarURL :=
            getAvatarWithEnterpriseFallback
              (avatar_url user) defaultEmail (Account.endpoint account) in
          Ok (Account.mk (Account.login account) (Account.endpoint account)
                (Account.token account) emails avatarURL
                (user_id user) (user_name user))
      end
  end.

(** [tryUpdateAccount]: the old account when the update fails. *)
Definition tryUpdateAccount (api : API) (account : Account.t) : Account.t :=
  tryCatch (updatedAccount api account) account.

(** *** The load *)

(** The account built from a stored record, before its token is known. *)
Definition accountWithoutToken (account : IAccount.t) : Account.t :=
  Account.mk (IAccount.login account) (IAccount.endpoint account) ""
    (IAccount.emails account) (IAccount.avatarURL account)
    (IAccount.id account) (IAccount.name account).

(** One round of the loop of [loadFromStore]. *)
Definition loadRecord (s : Store) (account : IAccount.t)
    (accountsWithTokens : list Account.t) : Store * list Account.t :=
  let key := getKeyForAccount (accountWithoutToken account) in
  match ss_getItem (secureStore s) key (IAccount.login account) with
  | (ss, Ok token) =>
      (set_secureStore ss s,
       accountsWithTokens ++
         [Account.withToken (accountWithoutToken account)
            (or_else_null token "")])
  | (ss, Throw e) =>
      (emitError e (set_secureStore ss s), accountsWithTokens)
  end.

(** The loop over the stored records. *)
Fixpoint loadRecords (s : Store) (rawAccounts : list IAccount.t)
    (accountsWithTokens : list Account.t) : Store * list Account.t :=
  match rawAccounts with
  | [] => (s, accountsWithTokens)
  | account :: rest =>
      let '(s', accountsWithTokens') :=
        loadRecord s account accountsWithTokens in
      loadRecords s' rest accountsWithTokens'
  end.

(** The end of [loadFromStore], after the loop; the promise resolves. *)
Definition finishLoad (s : Store) (accountsWithTokens : list Account.t)
  : Store :=
  set_loadingPromise Resolved
    (emitUpdate (set_accounts accountsWithTokens s)).

(** The loop and what follows it, run to the end. *)
Definition loadLoop (s : Store) (rawAccounts : list IAccount.t)
    (accountsWithTokens : list Account.t) : Store :=
  let '(s', accountsWithTokens') :=
    loadRecords s rawAccounts accountsWithTokens in
  finishLoad s' accountsWithTokens'.

(** [loadFromStore] up to its first [await]: what runs inside the
    constructor.  With no stored record the loop has no round and the
    function runs to its end at once. *)
Definition loadFromStore (s : Store) : Store :=
  match ds_getItem (dataStore s) "users" with
  | None => set_loadingPromise Resolved s
  | Some EmptyString => set_loadingPromise Resolved s
  | Some raw =>
      match JSON_parse raw with
      | Throw e => set_loadingPromise (Rejected e) s
      | Ok [] => finishLoad s []
      | Ok rawAccounts => set_loadingPromise (Pending rawAccounts []) s
      end
  end.

Definition constructor (dataStore : D) (secureStore : S) : Store :=
  loadFromStore (mkStore dataStore secureStore [] Resolved []).

(** The scheduler resumes the suspended load: the awaited lookup settles,
    the round ends, and the load either suspends at the next lookup or
    finishes. *)
Definition resume (s : Store) : Store :=
  match loadingPromise s with
  | Pending [] accountsWithTokens => finishLoad s accountsWithTokens
  | Pending (account :: rest) accountsWithTokens =>
      let '(s', accountsWithTokens') :=
        loadRecord s account accountsWithTokens in
      match rest with
      | [] => finishLoad s' accountsWithTokens'
      | _ :: _ => set_loadingPromise (Pending rest accountsWithTokens') s'
      end
  | Resolved | Rejected _ => s
  end.

(** [await this.loadingPromise]: the caller's continuation runs once the
    load has settled. *)
Definition awaitLoading (s : Store) : Store :=
  match loadingPromise s with
  | Pending todo accountsWithTokens => loadLoop s todo accountsWithTokens
  | Resolved | Rejected _ => s
  end.

(** A method body behind the gate: a rejected load rejects the method. *)
Definition gated {A} (s : Store) (body : Store → Store * Result A)
  : Store * Result A :=
  let s0 := awaitLoading s in
  match loadingPromise s0 with
  | Rejected e => (s0, Throw e)
  | Resolved | Pending _ _ => body s0
  end.

(** *** The public operations *)

Definition getAll (s : Store) : Store * Result (list Account.t) :=
  gated s (λ s0, (s0, Ok (accounts s0))).

Definition addAccount (api : API) (account : Account.t) (s : Store)
  : Store * Result unit :=
  gated s (λ s0,
    let updated := tryCatch (updatedAccount api account) account in
    match ss_setItem (secureStore s0) (getKeyForAccount updated)
            (Account.login updated) (Account.token updated) with
    | (ss, Throw e) => (emitError e (set_secureStore ss s0), Ok ())
    | (ss, Ok _) =>
        (save (set_accounts (accounts s0 ++ [updated])
                 (set_secureStore ss s0)), Ok ())
    end).

(** [refresh] up to its [await]: the per-account updates of the accounts
    the store holds when the method is called.  No gate comes first. *)
Definition refresh_begin (api : API) (s : Store) : list Account.t :=
  tryUpdateAccount api <$> accounts s.

(** [refresh] after its [await]: install the results in the store as it is
    by then, save, emit an update. *)
Definition refresh_end (results : list Account.t) (s : Store) : Store :=
  emitUpdate (save (set_accounts results s)).

(** [refresh] with nothing scheduled between its two halves. *)
Definition refresh (api : API) (s : Store) : Store * Result unit :=
  (refresh_end (refresh_begin api s) s, Ok ()).

Definition removeAccount (account : Account.t) (s : Store)
  : Store * Result unit :=
  gated s (λ s0,
    match ss_deleteItem (secureStore s0) (getKeyForAccount account)
            (Account.login account) with
    | (ss, Throw e) => (emitError e (set_secureStore ss s0), Ok ())
    | (ss, Ok _) =>
        (save (set_accounts
                 (filter (λ a, Account.id a ≠ Account.id account)
                    (accounts s0))
                 (set_secureStore ss s0)), Ok ())
    end).

(** *** Runs of the store *)

(** What can happen to a store: a caller invokes an operation and waits for
    it, or the scheduler resumes the suspended load. *)
Inductive Call :=
| CallGetAll
| CallAddAccount (api : API) (account : Account.t)
| CallRemoveAccount (account : Account.t)
| CallRefresh (api : API)
| Tick.

Definition call (s : Store) (c : Call) : Store :=
  match c with
  | CallGetAll => fst (getAll s)
  | CallAddAccount api account => fst (addAccount api account s)
  | CallRemoveAccount account => fst (removeAccount account s)
  | CallRefresh api => fst (refresh api s)
  | Tick => resume s
  end.

Definition run (calls : list Call) (s : Store) : Store :=
  fold_left call calls s.

End Store.

(** ** Test doubles

    In-memory collaborators, as the store's tests use them: a data store and
    a keychain held in finite maps, a keychain that fails for chosen logins,
    and canned API answers. *)

Module Fixtures.

Global Instance InMemoryStore : IDataStore (gmap string string) := {
  ds_getItem d key := d !! key;
  ds_setItem d key value := <[key := value]> d
}.

(** A keychain whose calls throw for the logins in [jammed], and whose
    writes and deletions throw for every login when it is [readOnly]. *)
Record Keychain := mkKeychain {
  vault : gmap (string * string) string;
  jammed : list string;
  readOnly : bool
}.

Definition keychainError : Error := mkError "Error" "keychain unavailable".

Definition guarded {A} (k : Keychain) (blocked : bool)
    (body : Keychain * Result A) : Keychain * Result A :=
  if blocked then (k, Throw keychainError) else body.

Global Instance InMemoryKeychain : ISecureStore Keychain := {
  ss_getItem k key login :=
    guarded k (bool_decide (login ∈ jammed k))
      (k, Ok (vault k !! (key, login)));
  ss_setItem k key login secret :=
    guarded k (readOnly k || bool_decide (login ∈ jammed k))
      (mkKeychain (<[(key, login) := secret]> (vault k))
         (jammed k) (readOnly k), Ok ());
  ss_deleteItem k key login :=
    guarded k (readOnly k || bool_decide (login ∈ jammed k))
      (mkKeychain (delete (key, login) (vault k))
         (jammed k) (readOnly k), Ok ())
}.

(** JSON text of an account list, for strings that need no escaping. *)
Definition quoted (s : string) : string :=
  let q := String (Ascii.ascii_of_nat 34) EmptyString in q +:+ s +:+ q.

Definition jsonField (key value : string) : string :=
  quoted key +:+ ":" +:+ value.

Definition jsonObject (fields : list string) : string :=
  "{" +:+ String.concat "," fields +:+ "}".

Definition jsonArray (items : list string) : string :=
  "[" +:+ String.concat "," items +:+ "]".

Definition jsonBool (b : bool) : string := if b then "true" else "false".

Definition jsonVisibility (v : EmailVisibility) : string :=
  match v with
  | VisPublic => quoted "public"
  | VisPrivate => quoted "private"
  | VisUnset => "null"
  end.

Definition jsonEmail (e : IEmail) : string :=
  jsonObject
    [jsonField "email" (quoted (email e));
     jsonField "verified" (jsonBool (verified e));
     jsonField "primary" (jsonBool (primary e));
     jsonField "visibility" (jsonVisibility (visibility e))].

Definition jsonAccount (a : Account.t) : string :=
  jsonObject
    [jsonField "token" (quoted (Account.token a));
     jsonField "login" (quoted (Account.login a));
     jsonField "endpoint" (quoted (Account.endpoint a));
     jsonField "emails" (jsonArray (map jsonEmail (Account.emails a)));
     jsonField "avatarURL" (quoted (Account.avatarURL a));
     jsonField "id" (pretty (Account.id a));
     jsonField "name" (quoted (Account.name a))].

Definition stringify (l : list Account.t) : string :=
  jsonArray (map jsonAccount l).

Definition aliceEmail : IEmail :=
  mkEmail "alice@example.com" true true VisPublic.

Definition alice : Account.t :=
  Account.mk "alice" "https://api.github.com" "s3cret" [aliceEmail]
    "https://avatars.example.com/u/7" 7 "Alice".

Definition aliceRecord : IAccount.t :=
  IAccount.mk "" "alice" "https://api.github.com" [aliceEmail]
    "https://avatars.example.com/u/7" 7 "Alice".

Definition bob : Account.t :=
  Account.mk "bob" "https://api.github.com" "hunter2" []
    "https://avatars.example.com/u/9" 9 "Bob".

Definition bobRecord : IAccount.t :=
  IAccount.mk "" "bob" "https://api.github.com" []
    "https://avatars.example.com/u/9" 9 "Bob".

Definition syntaxError : Error := mkError "SyntaxError" "Unexpected token".

(** The parser knows the texts the fixtures store. *)
Definition parse (raw : string) : Result (list IAccount.t) :=
  if decide (raw = "[]") then Ok []
  else if decide (raw = stringify [Account.withToken alice ""])
  then Ok [aliceRecord]
  else if decide (raw = stringify [Account.withToken alice "";
                                    Account.withToken bob ""])
  then Ok [aliceRecord; bobRecord]
  else if decide (raw = stringify [Account.withToken alice "";
                                    Account.withToken alice ""])
  then Ok [aliceRecord; aliceRecord]
  else Throw syntaxError.

Global Instance TestPlatform : Platform := {
  JSON_parse := parse;
  JSON_stringify := stringify;
  keyFor login endpoint := "GitHub - " +:+ endpoint;
  getAvatarWithEnterpriseFallback avatar_url email endpoint := avatar_url
}.

Definition networkError : Error := mkError "Error" "getaddrinfo ENOTFOUND".

(** The network is down. *)
Definition offline : API := mkAPI (λ _, Throw networkError) (λ _, Throw networkError).

(** The service answers with a new display name and one email. *)
Definition online : API :=
  mkAPI (λ a, Ok (mkUser (Account.id a) "Renamed" (Account.avatarURL a)))
        (λ _, Ok [aliceEmail]).

(** The service answers, and the user has no email. *)
Definition noEmails : API :=
  mkAPI (λ a, Ok (mkUser (Account.id a) "Renamed" (Account.avatarURL a)))
        (λ _, Ok []).

(** Up for alice, down for everyone else. *)
Definition aliceOnly : API :=
  mkAPI (λ a, if decide (Account.login a = "alice")
              then Ok (mkUser (Account.id a) "Renamed" (Account.avatarURL a))
              else Throw networkError)
        (λ _, Ok [aliceEmail]).

Definition emptyKeychain : Keychain := mkKeychain ∅ [] false.

Definition aliceKey : string * string :=
  ("GitHub - https://api.github.com", "alice").

Definition bobKey : string * string :=
  ("GitHub - https://api.github.com", "bob").

Definition tokens : gmap (string * string) string :=
  <[aliceKey := "s3cret"]> (<[bobKey := "hunter2"]> ∅).

(** A keychain holding the tokens of alice and bob. *)
Definition keychain : Keychain := mkKeychain tokens [] false.

(** The same keychain, failing for bob. *)
Definition jammedKeychain : Keychain := mkKeychain tokens ["bob"] false.

(** The same keychain, readable only. *)
Definition readOnlyKeychain : Keychain := mkKeychain tokens [] true.

Definition noData : gmap string string := ∅.

(** A data store holding alice's record, and one holding alice's and
    bob's. *)
Definition aliceStored : gmap string string :=
  <["users" := stringify [Account.withToken alice ""]]> ∅.

Definition bothStored : gmap string string :=
  <["users" := stringify [Account.withToken alice "";
                          Account.withToken bob ""]]> ∅.

(** An account as the sign-in flow hands it over, before the service has
    been asked: no id yet. *)
Definition carol : Account.t :=
  Account.mk "carol" "https://api.github.com" "c4rol" [] "" 0 "".

(** The service knows carol under id 11. *)
Definition knowsCarol : API :=
  mkAPI (λ _, Ok (mkUser 11 "Carol" "https://avatars.example.com/u/11"))
        (λ _, Ok [mkEmail "carol@example.com" true true VisPrivate]).

(** The service knows carol under id 11, and everyone else under the id
    they come with. *)
Definition directory : API :=
  mkAPI (λ a, if decide (Account.login a = "carol")
              then Ok (mkUser 11 "Carol" "https://avatars.example.com/u/11")
              else Ok (mkUser (Account.id a) (Account.name a)
                         (Account.avatarURL a)))
        (λ _, Ok [aliceEmail]).

(** A data store that holds alice's record twice, as a store that added her
    twice saved it. *)
Definition twiceStored : gmap string string :=
  <["users" := stringify [Account.withToken alice "";
                          Account.withToken alice ""]]> ∅.

(** A data store whose text under [users] is not JSON. *)
Definition corruptStored : gmap string string := <["users" := "{oops"]> ∅.

End Fixtures.

(** ** Vocabulary of the statements *)

Section Vocabulary.
Context {D S : Type} `{!IDataStore D, !ISecureStore S, !Platform}.

(** The credential-store lookups of a load over [rawAccounts], in order:
    each stored record with the outcome of its lookup, the store being
    threaded from one lookup to the next. *)
Fixpoint lookups (ss : S) (rawAccounts : list IAccount.t)
  : list (IAccount.t * Result (option string)) :=
  match rawAccounts with
  | [] => []
  | account :: rest =>
      let key := getKeyForAccount (accountWithoutToken account) in
      let '(ss', outcome) := ss_getItem ss key (IAccount.login account) in
      (account, outcome) :: lookups ss' rest
  end.

(** The account a lookup contributes to the list: none when it failed. *)
Definition kept (entry : IAccount.t * Result (option string))
  : option Account.t :=
  match entry.2 with
  | Ok token =>
      Some (Account.withToken (accountWithoutToken entry.1)
              (or_else_null token ""))
  | Throw _ => None
  end.

(** The error notification a lookup contributes: one when it failed. *)
Definition reported (entry : IAccount.t * Result (option string))
  : option Effect :=
  match entry.2 with
  | Ok _ => None
  | Throw e => Some (DidError e)
  end.

(** A write to the data store goes to [users] and carries the JSON text of
    records whose tokens are all empty. *)
Definition stripped_write (e : Effect) : Prop :=
  match e with
  | DataSetItem key value =>
      key = "users" ∧
      ∃ records, value = JSON_stringify records ∧
                 Forall (λ r, Account.token r = "") records
  | DidUpdate | DidError _ => True
  end.

(** The persist step as seen from outside, for the list the store holds:
    the write of the token-stripped list, then the update notification. *)
Definition persist_step (s : AccountsStore D S) : list Effect :=
  [DataSetItem "users"
     (JSON_stringify ((λ a, Account.withToken a "") <$> accounts s));
   DidUpdate].

Definition is_write (e : Effect) : bool :=
  match e with
  | DataSetItem _ _ => true
  | DidUpdate | DidError _ => false
  end.

Definition ids (l : list Account.t) : list Z := Account.id <$> l.

(** A call that cannot introduce a duplicate id: an add that, when it
    passes the gate and the credential store takes the token, appends an
    account whose id the list does not hold yet; a refresh whose results
    have ids that differ from one another. *)
Definition keeps_ids_apart (s : AccountsStore D S) (c : Call) : Prop :=
  match c with
  | CallAddAccount api account =>
      let s0 := awaitLoading s in
      let stored := tryUpdateAccount api account in
      loadingPromise s0 = Resolved →
      (ss_setItem (secureStore s0) (getKeyForAccount stored)
         (Account.login stored) (Account.token stored)).2 = Ok () →
      Account.id stored ∉ ids (accounts s0)
  | CallRefresh api => NoDup (ids (tryUpdateAccount api <$> accounts s))
  | CallGetAll | CallRemoveAccount _ | Tick => True
  end.

(** A run in which every call keeps ids apart, each judged in the state it
    is made in. *)
Fixpoint keeps_ids_apart_run (s : AccountsStore D S) (calls : list Call)
  : Prop :=
  match calls with
  | [] => True
  | c :: rest => keeps_ids_apart s c ∧ keeps_ids_apart_run (call s c) rest
  end.

(** No two ids alike, in the list and in what a suspended load is about to
    install: the accounts it has collected and those it will keep of the
    records it has yet to look up. *)
Definition ids_apart (s : AccountsStore D S) : Prop :=
  NoDup (ids (accounts s)) ∧
  match loadingPromise s with
  | Pending todo accountsWithTokens =>
      NoDup (ids (accountsWithTokens
                    ++ omap kept (lookups (secureStore s) todo)))
  | Resolved | Rejected _ => True
  end.

(** The effects [later] adds to those of [earlier] hold no write. *)
Definition quiet (earlier later : AccountsStore D S) : Prop :=
  ∃ extra, effects later = effects earlier ++ extra ∧
           Forall (λ e, is_write e = false) extra.

(** The stored records, when the data store holds a list of them. *)
Definition storedRecords (d : D) : list IAccount.t :=
  match ds_getItem d "users" with
  | None | Some EmptyString => []
  | Some raw =>
      match JSON_parse raw with
      | Ok rawAccounts => rawAccounts
      | Throw _ => []
      end
  end.

(** The record [JSON.parse] gives back for an account as [JSON.stringify]
    wrote it: the same seven fields. *)
Definition toRecord (a : Account.t) : IAccount.t :=
  IAccount.mk (Account.token a) (Account.login a) (Account.endpoint a)
    (Account.emails a) (Account.avatarURL a) (Account.id a) (Account.name a).

(** [k] turns of the scheduler in a row. *)
Definition ticks (k : nat) : list Call := replicate k Tick.

Definition is_error (e : Effect) : bool :=
  match e with
  | DidError _ => true
  | DidUpdate | DataSetItem _ _ => false
  end.

(** The load has settled, one way or the other. *)
Definition settled (s : AccountsStore D S) : Prop :=
  match loadingPromise s with
  | Pending _ _ => False
  | Resolved | Rejected _ => True
  end.

End Vocabulary.

(** ** Facts *)

Section StoreFacts.
Context {D S : Type} `{!IDataStore D, !ISecureStore S, !Platform}.
Implicit Types (s : AccountsStore D S) (api : API) (account : Account.t).

(** *** The per-account refresh *)

Lemma updatedAccount_keeps api account updated :
  updatedAccount api account = Ok updated →
  Account.login updated = Account.login account ∧
  Account.endpoint updated = Account.endpoint account ∧
  Account.token updated = Account.token account.
Proof.
  unfold updatedAccount, mbind, Result_bind.
  destruct (Account.token account); [discriminate|].
  destruct (fetchAccount api account); [|discriminate].
  destruct (fetchEmails api account) as [es|]; [|discriminate].
  destruct (es !! 0%nat); [|discriminate].
  intros [= <-]. done.
Qed.

Lemma tryUpdateAccount_keeps api account :
  Account.login (tryUpdateAccount api account) = Account.login account ∧
  Account.endpoint (tryUpdateAccount api account) = Account.endpoint account ∧
  Account.token (tryUpdateAccount api account) = Account.token account.
Proof.
  unfold tryUpdateAccount, tryCatch.
  destruct (updatedAccount api account) eqn:E; [|done].
  by apply (updatedAccount_keeps api).
Qed.

Lemma tryUpdateAccount_key api account :
  getKeyForAccount (tryUpdateAccount api account) = getKeyForAccount account.
Proof.
  unfold getKeyForAccount.
  destruct (tryUpdateAccount_keeps api account) as (-> & -> & _). done.
Qed.

(** *** The gate *)

Lemma awaitLoading_resolved s :
  loadingPromise s = Resolved → awaitLoading s = s.
Proof. unfold awaitLoading. by intros ->. Qed.

Lemma awaitLoading_rejected s e :
  loadingPromise s = Rejected e → awaitLoading s = s.
Proof. unfold awaitLoading. by intros ->. Qed.

Lemma loadLoop_resolved s rawAccounts acc :
  loadingPromise (loadLoop s rawAccounts acc) = Resolved.
Proof.
  unfold loadLoop. by destruct (loadRecords s rawAccounts acc).
Qed.

Lemma awaitLoading_settled s :
  loadingPromise (awaitLoading s) = Resolved ∨
  ∃ e, loadingPromise s = Rejected e ∧ awaitLoading s = s.
Proof.
  unfold awaitLoading.
  destruct (loadingPromise s) eqn:E; eauto using loadLoop_resolved.
Qed.

Lemma awaitLoading_idemp s : awaitLoading (awaitLoading s) = awaitLoading s.
Proof.
  destruct (awaitLoading_settled s) as [Hr|(e & _ & Hs)].
  - by apply awaitLoading_resolved.
  - by rewrite !Hs.
Qed.

Lemma gated_resolved {A} s (body : AccountsStore D S → AccountsStore D S * Result A) :
  loadingPromise (awaitLoading s) = Resolved →
  gated s body = body (awaitLoading s).
Proof. unfold gated. by intros ->. Qed.

Lemma gated_rejected {A} s (body : AccountsStore D S → AccountsStore D S * Result A) e :
  loadingPromise (awaitLoading s) = Rejected e →
  gated s body = (awaitLoading s, Throw e).
Proof. unfold gated. by intros ->. Qed.

(** The constructor leaves the list empty, whatever the data store holds:
    a stored record is only installed when the load resumes. *)
Lemma constructor_accounts (ds : D) (ss : S) : accounts (constructor ds ss) = [].
Proof.
  unfold constructor, loadFromStore. cbn [dataStore].
  destruct (ds_getItem ds "users") as [[|c raw]|]; try done.
  by destruct (JSON_parse _) as [[|r rest]|e].
Qed.

(** So a [refresh] called on a new store has nothing to map over. *)
Lemma refresh_begin_constructor api (ds : D) (ss : S) :
  refresh_begin api (constructor ds ss) = [].
Proof. unfold refresh_begin. by rewrite constructor_accounts. Qed.

(** *** The load, round by round *)

Lemma lookups_records (ss : S) rawAccounts :
  (lookups ss rawAccounts).*1 = rawAccounts.
Proof.
  revert ss. induction rawAccounts as [|r rest IH]; intros ss; [done|].
  cbn. destruct (ss_getItem ss _ _) as [ss' outcome]. cbn. by rewrite IH.
Qed.

Lemma loadRecord_spec s r acc :
  let entry := (r, (ss_getItem (secureStore s)
                      (getKeyForAccount (accountWithoutToken r))
                      (IAccount.login r)).2) in
  let result := loadRecord s r acc in
  result.2 = acc ++ option_list (kept entry) ∧
  effects result.1 = effects s ++ option_list (reported entry) ∧
  secureStore result.1 = (ss_getItem (secureStore s)
                            (getKeyForAccount (accountWithoutToken r))
                            (IAccount.login r)).1 ∧
  dataStore result.1 = dataStore s ∧
  accounts result.1 = accounts s ∧
  loadingPromise result.1 = loadingPromise s.
Proof.
  cbv zeta. unfold loadRecord, kept, reported.
  destruct (ss_getItem _ _ _) as [ss' [token|e]]; cbn.
  - by rewrite app_nil_r.
  - by rewrite app_nil_r.
Qed.

Lemma loadRecords_spec s rawAccounts acc :
  let ls := lookups (secureStore s) rawAccounts in
  let result := loadRecords s rawAccounts acc in
  result.2 = acc ++ omap kept ls ∧
  effects result.1 = effects s ++ omap reported ls ∧
  dataStore result.1 = dataStore s ∧
  accounts result.1 = accounts s ∧
  loadingPromise result.1 = loadingPromise s.
Proof.
  cbv zeta. revert s acc.
  induction rawAccounts as [|r rest IH]; intros s acc.
  { cbn. by rewrite !app_nil_r. }
  cbn [loadRecords lookups].
  pose proof (loadRecord_spec s r acc) as Hone. cbv zeta in Hone.
  destruct (loadRecord s r acc) as [s1 acc1].
  destruct (ss_getItem (secureStore s) _ _) as [ss1 outcome].
  cbn [fst snd] in Hone.
  destruct Hone as (-> & Heff & Hss & Hds & Hacc & Hp).
  specialize (IH s1 (acc ++ option_list (kept (r, outcome)))).
  rewrite Hss in IH.
  destruct IH as (-> & -> & -> & -> & ->).
  rewrite Heff, Hds, Hacc, Hp.
  split_and!; try done.
  - rewrite <- app_assoc. f_equal. by destruct outcome.
  - rewrite <- app_assoc. f_equal. by destruct outcome.
Qed.

Lemma loadLoop_spec s rawAccounts acc :
  let ls := lookups (secureStore s) rawAccounts in
  let s' := loadLoop s rawAccounts acc in
  accounts s' = acc ++ omap kept ls ∧
  effects s' = effects s ++ omap reported ls ++ [DidUpdate] ∧
  dataStore s' = dataStore s ∧
  loadingPromise s' = Resolved.
Proof.
  cbv zeta. unfold loadLoop.
  pose proof (loadRecords_spec s rawAccounts acc) as Hloop.
  cbv zeta in Hloop.
  destruct (loadRecords s rawAccounts acc) as [s1 acc1].
  cbn [fst snd] in Hloop. destruct Hloop as (-> & Heff & Hds & _ & _).
  cbn. rewrite Heff, Hds. by rewrite <- app_assoc.
Qed.

(** The rounds of the load neither read nor write the promise. *)
Lemma loadRecords_set_loadingPromise s rawAccounts acc p :
  loadRecords (set_loadingPromise p s) rawAccounts acc
  = (set_loadingPromise p (loadRecords s rawAccounts acc).1,
     (loadRecords s rawAccounts acc).2).
Proof.
  revert s acc. induction rawAccounts as [|r rest IH]; intros s acc; [done|].
  cbn [loadRecords]. unfold loadRecord.
  cbn [secureStore set_loadingPromise].
  destruct (ss_getItem _ _ _) as [ss' [token|e]].
  - apply (IH (set_secureStore ss' s)).
  - apply (IH (emitError e (set_secureStore ss' s))).
Qed.

(** Resuming the load one round at a time ends where [awaitLoading] ends. *)
Lemma awaitLoading_resume s : awaitLoading (resume s) = awaitLoading s.
Proof.
  unfold resume, awaitLoading at 2.
  destruct (loadingPromise s) as [[|r rest] acc| |e] eqn:Hp.
  - unfold loadLoop. cbn [loadRecords].
    by rewrite awaitLoading_resolved.
  - unfold loadLoop. cbn [loadRecords].
    destruct (loadRecord s r acc) as [s1 acc1].
    destruct rest as [|r' rest].
    + cbn [loadRecords]. by rewrite awaitLoading_resolved.
    + unfold awaitLoading. cbn [loadingPromise set_loadingPromise].
      unfold loadLoop. rewrite loadRecords_set_loadingPromise.
      by destruct (loadRecords s1 (r' :: rest) acc1) as [s2 acc2].
  - by rewrite awaitLoading_resolved.
  - by rewrite (awaitLoading_rejected _ e).
Qed.

(** C7: the initial load over the stored records makes one lookup per
    record, in order.  A record whose lookup fails is left out of the list
    and its error is emitted; a record whose lookup succeeds is loaded with
    the token found, or with the empty token when there is none; the load
    always goes through every record and ends resolved with one update
    notification. *)
Theorem load_isolates_failed_lookups (ds : D) (ss : S) raw rawAccounts :
  ds_getItem ds "users" = Some raw →
  raw ≠ "" →
  JSON_parse raw = Ok rawAccounts →
  let s := awaitLoading (constructor ds ss) in
  let ls := lookups ss rawAccounts in
  ls.*1 = rawAccounts ∧
  accounts s = omap kept ls ∧
  effects s = omap reported ls ++ [DidUpdate] ∧
  loadingPromise s = Resolved ∧
  (∀ r e, (r, Throw e) ∈ ls → DidError e ∈ effects s) ∧
  (∀ r token, (r, Ok token) ∈ ls →
     Account.withToken (accountWithoutToken r) (or_else_null token "")
       ∈ accounts s).
Proof.
  intros Hget Hraw Hparse. cbv zeta.
  assert (accounts (awaitLoading (constructor ds ss))
            = omap kept (lookups ss rawAccounts) ∧
          effects (awaitLoading (constructor ds ss))
            = omap reported (lookups ss rawAccounts) ++ [DidUpdate] ∧
          loadingPromise (awaitLoading (constructor ds ss)) = Resolved)
    as (Hacc & Heff & Hp).
  { unfold constructor, loadFromStore. cbn [dataStore]. rewrite Hget.
    destruct raw as [|c raw]; [done|]. rewrite Hparse.
    destruct rawAccounts as [|r rest].
    - by rewrite awaitLoading_resolved.
    - unfold awaitLoading. cbn [loadingPromise set_loadingPromise].
      pose proof (loadLoop_spec
                    (set_loadingPromise (Pending (r :: rest) [])
                       (mkStore ds ss [] Resolved [])) (r :: rest) []) as Hl.
      cbv zeta in Hl. destruct Hl as (-> & -> & _ & ->). done. }
  split_and!; try done.
  - apply lookups_records.
  - intros r e Hin. rewrite Heff. apply elem_of_app. left.
    apply list_elem_of_omap. by exists (r, Throw e).
  - intros r token Hin. rewrite Hacc.
    apply list_elem_of_omap. by exists (r, Ok token).
Qed.

(** *** What the operations leave behind *)

Lemma save_spec s :
  effects (save s) = effects s ++ persist_step (save s) ∧
  dataStore (save s)
    = ds_setItem (dataStore s) "users"
        (JSON_stringify ((λ a, Account.withToken a "") <$> accounts s)) ∧
  accounts (save s) = accounts s ∧
  secureStore (save s) = secureStore s ∧
  loadingPromise (save s) = loadingPromise s.
Proof.
  unfold save, persist_step, emitUpdate, perform. cbn.
  by rewrite <- app_assoc.
Qed.

Lemma addAccount_success api account s ss u :
  loadingPromise (awaitLoading s) = Resolved →
  ss_setItem (secureStore (awaitLoading s)) (getKeyForAccount account)
    (Account.login account) (Account.token account) = (ss, Ok u) →
  addAccount api account s
  = (save (set_accounts
             (accounts (awaitLoading s) ++ [tryUpdateAccount api account])
             (set_secureStore ss (awaitLoading s))), Ok ()).
Proof.
  intros Hgate Hset. unfold addAccount. rewrite gated_resolved by done.
  fold (tryUpdateAccount api account).
  rewrite tryUpdateAccount_key.
  destruct (tryUpdateAccount_keeps api account) as (Hl & _ & Ht).
  rewrite Hl, Ht, Hset. done.
Qed.

Lemma addAccount_failure api account s ss e :
  loadingPromise (awaitLoading s) = Resolved →
  ss_setItem (secureStore (awaitLoading s)) (getKeyForAccount account)
    (Account.login account) (Account.token account) = (ss, Throw e) →
  addAccount api account s
  = (emitError e (set_secureStore ss (awaitLoading s)), Ok ()).
Proof.
  intros Hgate Hset. unfold addAccount. rewrite gated_resolved by done.
  fold (tryUpdateAccount api account).
  rewrite tryUpdateAccount_key.
  destruct (tryUpdateAccount_keeps api account) as (Hl & _ & Ht).
  rewrite Hl, Ht, Hset. done.
Qed.

Lemma removeAccount_success account s ss u :
  loadingPromise (awaitLoading s) = Resolved →
  ss_deleteItem (secureStore (awaitLoading s)) (getKeyForAccount account)
    (Account.login account) = (ss, Ok u) →
  removeAccount account s
  = (save (set_accounts
             (filter (λ a, Account.id a ≠ Account.id account)
                (accounts (awaitLoading s)))
             (set_secureStore ss (awaitLoading s))), Ok ()).
Proof.
  intros Hgate Hdel. unfold removeAccount. rewrite gated_resolved by done.
  by rewrite Hdel.
Qed.

Lemma removeAccount_failure account s ss e :
  loadingPromise (awaitLoading s) = Resolved →
  ss_deleteItem (secureStore (awaitLoading s)) (getKeyForAccount account)
    (Account.login account) = (ss, Throw e) →
  removeAccount account s
  = (emitError e (set_secureStore ss (awaitLoading s)), Ok ()).
Proof.
  intros Hgate Hdel. unfold removeAccount. rewrite gated_resolved by done.
  by rewrite Hdel.
Qed.

(** *** The per-account refresh on an empty email list *)

(** C2: the claim says that an account with a token whose fetched email list
    is empty is refreshed without error, the default email being the empty
    string.  The code reads [emails[0].email] first: on an empty list it
    throws a [TypeError], no avatar is derived and no account is produced;
    [tryUpdateAccount] then falls back to the old account. *)
Theorem updatedAccount_empty_emails_throws api account user :
  Account.token account ≠ "" →
  fetchAccount api account = Ok user →
  fetchEmails api account = Ok [] →
  updatedAccount api account
    = Throw (typeError "Cannot read property 'email' of undefined") ∧
  tryUpdateAccount api account = account.
Proof.
  intros Htoken Huser Hemails.
  assert (updatedAccount api account
          = Throw (typeError "Cannot read property 'email' of undefined"))
    as Hthrow.
  { unfold updatedAccount, mbind, Result_bind.
    destruct (Account.token account); [done|].
    by rewrite Huser, Hemails. }
  split; [done|].
  unfold tryUpdateAccount. by rewrite Hthrow.
Qed.

(** *** Failures of the credential store *)

(** C3: when the credential store refuses the token during [addAccount], the
    store emits the error and nothing else (no update notification), and the
    account list and the data store are as they were when the method passed
    the gate; so the account is in neither unless it was there before. *)
Theorem addAccount_setItem_failure api account s ss e :
  loadingPromise (awaitLoading s) = Resolved →
  ss_setItem (secureStore (awaitLoading s)) (getKeyForAccount account)
    (Account.login account) (Account.token account) = (ss, Throw e) →
  let s0 := awaitLoading s in
  let s' := (addAccount api account s).1 in
  effects s' = effects s0 ++ [DidError e] ∧
  accounts s' = accounts s0 ∧
  dataStore s' = dataStore s0 ∧
  (addAccount api account s).2 = Ok ().
Proof.
  intros Hgate Hset. cbv zeta.
  by rewrite (addAccount_failure api account s ss e).
Qed.

(** C4: when the credential store fails to delete during [removeAccount],
    the store emits the error and nothing else, and the account list and the
    data store are exactly as they were when the method passed the gate. *)
Theorem removeAccount_deleteItem_failure account s ss e :
  loadingPromise (awaitLoading s) = Resolved →
  ss_deleteItem (secureStore (awaitLoading s)) (getKeyForAccount account)
    (Account.login account) = (ss, Throw e) →
  let s0 := awaitLoading s in
  let s' := (removeAccount account s).1 in
  effects s' = effects s0 ++ [DidError e] ∧
  accounts s' = accounts s0 ∧
  dataStore s' = dataStore s0 ∧
  (removeAccount account s).2 = Ok ().
Proof.
  intros Hgate Hdel. cbv zeta.
  by rewrite (removeAccount_failure account s ss e).
Qed.

(** *** Removal *)

(** C10: when the deletion from the credential store succeeds,
    [removeAccount] keeps exactly the accounts whose id differs from the
    given account's, in their order; every account with that id goes, so a
    list of accounts that all share it becomes empty. *)
Theorem removeAccount_drops_every_match account s ss u :
  loadingPromise (awaitLoading s) = Resolved →
  ss_deleteItem (secureStore (awaitLoading s)) (getKeyForAccount account)
    (Account.login account) = (ss, Ok u) →
  let before := accounts (awaitLoading s) in
  let after := accounts (removeAccount account s).1 in
  (∀ a, a ∈ after ↔ a ∈ before ∧ Account.id a ≠ Account.id account) ∧
  sublist after before ∧
  (Forall (λ a, Account.id a = Account.id account) before → after = []) ∧
  after = filter (λ a, Account.id a ≠ Account.id account) before.
Proof.
  intros Hgate Hdel. cbv zeta.
  rewrite (removeAccount_success account s ss u) by done. cbn.
  set (before := accounts (awaitLoading s)).
  split_and!.
  - intros a. rewrite list_elem_of_filter. tauto.
  - apply sublist_filter.
  - intros Hall. induction Hall as [|a l Ha Hall IH]; [done|].
    rewrite filter_cons. destruct (decide _); [done | apply IH].
  - done.
Qed.

(** *** Refresh *)

(** [refresh] position by position, by the outcome of [updatedAccount]:
    the updated account where it returned, the old one where it threw; the
    store persists and emits an update either way. *)
Lemma refresh_falls_back_per_account api s :
  let before := accounts s in
  let s' := (refresh api s).1 in
  let after := accounts s' in
  length after = length before ∧
  (∀ i a updated, before !! i = Some a →
     updatedAccount api a = Ok updated → after !! i = Some updated) ∧
  (∀ i a e, before !! i = Some a →
     updatedAccount api a = Throw e → after !! i = Some a) ∧
  effects s' = effects s ++ persist_step s' ++ [DidUpdate] ∧
  ((∀ a, a ∈ before → ∃ e, updatedAccount api a = Throw e) →
     after = before ∧ last (effects s') = Some DidUpdate).
Proof.
  cbv zeta. unfold refresh, refresh_end, refresh_begin. cbn [fst].
  assert (accounts (emitUpdate (save (set_accounts
            (tryUpdateAccount api <$> accounts s) s)))
          = tryUpdateAccount api <$> accounts s) as Hafter by done.
  assert (effects (emitUpdate (save (set_accounts
            (tryUpdateAccount api <$> accounts s) s)))
          = effects s ++ persist_step (emitUpdate (save (set_accounts
              (tryUpdateAccount api <$> accounts s) s))) ++ [DidUpdate])
    as Heffects.
  { unfold emitUpdate, save, perform, persist_step. cbn.
    by rewrite <- !app_assoc. }
  rewrite Hafter. split_and!.
  - by rewrite length_fmap.
  - intros i a updated Hi Hok. rewrite list_lookup_fmap, Hi. cbn.
    unfold tryUpdateAccount. by rewrite Hok.
  - intros i a e Hi Hthrow. rewrite list_lookup_fmap, Hi. cbn.
    unfold tryUpdateAccount. by rewrite Hthrow.
  - done.
  - intros Hall. split.
    + rewrite <- (list_fmap_id (accounts s)) at 2.
      apply list_fmap_ext. intros i a Hi.
      destruct (Hall a) as [e He]; [by eapply list_elem_of_lookup_2|].
      unfold tryUpdateAccount. by rewrite He.
    + rewrite Heffects, !app_assoc. apply last_snoc.
Qed.

(** C6: the claim says that after [refresh] each position holds the updated
    account when that account's fetch succeeded and the old account when it
    failed.  For an account with a token, [refresh] keeps the length and the
    order, keeps the old account when [fetchAccount] or [fetchEmails]
    fails, and installs the account built from the answers when both
    succeed with at least one email.  When both succeed and the email list
    is empty, the fetch has succeeded and the position still holds the old
    account: reading [emails[0].email] throws inside [updatedAccount] and
    [tryUpdateAccount] falls back. *)
Theorem refresh_position_by_fetch_outcome api s i a :
  accounts s !! i = Some a →
  Account.token a ≠ "" →
  let after := accounts (refresh api s).1 in
  length after = length (accounts s) ∧
  (∀ e, fetchAccount api a = Throw e → after !! i = Some a) ∧
  (∀ user e,
     fetchAccount api a = Ok user → fetchEmails api a = Throw e →
     after !! i = Some a) ∧
  (∀ user first rest,
     fetchAccount api a = Ok user → fetchEmails api a = Ok (first :: rest) →
     after !! i
       = Some (Account.mk (Account.login a) (Account.endpoint a)
                 (Account.token a) (first :: rest)
                 (getAvatarWithEnterpriseFallback (avatar_url user)
                    (or_else (email first) "") (Account.endpoint a))
                 (user_id user) (user_name user))) ∧
  (∀ user,
     fetchAccount api a = Ok user → fetchEmails api a = Ok [] →
     after !! i = Some a).
Proof.
  intros Hi Htoken. cbv zeta.
  change (accounts (refresh api s).1)
    with (tryUpdateAccount api <$> accounts s).
  rewrite length_fmap, list_lookup_fmap, Hi. cbn [fmap option_fmap option_map].
  unfold tryUpdateAccount, updatedAccount, mbind, Result_bind.
  destruct (Account.token a) as [|c token]; [done|].
  split_and!; [done|..].
  - by intros e ->.
  - by intros user e -> ->.
  - by intros user first rest -> ->.
  - by intros user -> ->.
Qed.

(** *** Writes to the data store *)

Lemma reported_quiet (ls : list (IAccount.t * Result (option string))) :
  Forall (λ e, is_write e = false) (omap reported ls).
Proof.
  apply Forall_forall. intros e [[r outcome] [_ Hrep]]%list_elem_of_omap.
  unfold reported in Hrep. cbn in Hrep.
  destruct outcome; [done|]. by injection Hrep as <-.
Qed.

Lemma quiet_refl s : quiet s s.
Proof. exists []. by rewrite app_nil_r. Qed.

Lemma loadLoop_quiet s rawAccounts acc : quiet s (loadLoop s rawAccounts acc).
Proof.
  destruct (loadLoop_spec s rawAccounts acc) as (_ & Heff & _).
  eexists. split; [exact Heff|].
  apply Forall_app. split; [apply reported_quiet|by constructor].
Qed.

Lemma awaitLoading_quiet s : quiet s (awaitLoading s).
Proof.
  unfold awaitLoading.
  destruct (loadingPromise s); auto using quiet_refl, loadLoop_quiet.
Qed.

Lemma awaitLoading_dataStore s : dataStore (awaitLoading s) = dataStore s.
Proof.
  unfold awaitLoading. destruct (loadingPromise s); try done.
  by destruct (loadLoop_spec s todo accountsWithTokens) as (_ & _ & -> & _).
Qed.

Lemma resume_quiet s : quiet s (resume s).
Proof.
  unfold resume.
  destruct (loadingPromise s) as [[|r rest] acc| |e]; try apply quiet_refl.
  - exists [DidUpdate]. split; [done|by constructor].
  - pose proof (loadRecord_spec s r acc) as Hone. cbv zeta in Hone.
    destruct (loadRecord s r acc) as [s1 acc1]. cbn [fst snd] in Hone.
    destruct Hone as (_ & Heff & _).
    assert (Forall (λ e, is_write e = false)
              (option_list (reported
                 (r, (ss_getItem (secureStore s)
                        (getKeyForAccount (accountWithoutToken r))
                        (IAccount.login r)).2)))) as Hq.
    { unfold reported. cbn. destruct (ss_getItem _ _ _).2; cbn; by repeat constructor. }
    destruct rest as [|r' rest].
    + eexists. split.
      * cbn. rewrite Heff, <- app_assoc. done.
      * apply Forall_app. split; [done|by constructor].
    + eexists. split; [exact Heff|done].
Qed.

Lemma constructor_quiet (ds : D) (ss : S) :
  Forall (λ e, is_write e = false) (effects (constructor ds ss)) ∧
  dataStore (constructor ds ss) = ds.
Proof.
  unfold constructor, loadFromStore. cbn [dataStore].
  destruct (ds_getItem ds "users") as [[|c raw]|]; try done.
  destruct (JSON_parse _) as [[|r rest]|e]; try done.
  cbn. split; [by repeat constructor|done].
Qed.

(** C8 (as the code behaves): the persist step, a write of the
    token-stripped list under [users] followed by an update notification,
    runs after every successful add, remove and refresh.  The load does not
    run it: it writes nothing to the data store. *)
Theorem persist_follows_mutations api account s (ds : D) (ss : S) :
  (∀ ss' u,
     loadingPromise (awaitLoading s) = Resolved →
     ss_setItem (secureStore (awaitLoading s)) (getKeyForAccount account)
       (Account.login account) (Account.token account) = (ss', Ok u) →
     let s' := (addAccount api account s).1 in
     effects s' = effects (awaitLoading s) ++ persist_step s' ∧
     dataStore s'
       = ds_setItem (dataStore (awaitLoading s)) "users"
           (JSON_stringify ((λ a, Account.withToken a "") <$> accounts s'))) ∧
  (∀ ss' u,
     loadingPromise (awaitLoading s) = Resolved →
     ss_deleteItem (secureStore (awaitLoading s)) (getKeyForAccount account)
       (Account.login account) = (ss', Ok u) →
     let s' := (removeAccount account s).1 in
     effects s' = effects (awaitLoading s) ++ persist_step s' ∧
     dataStore s'
       = ds_setItem (dataStore (awaitLoading s)) "users"
           (JSON_stringify ((λ a, Account.withToken a "") <$> accounts s'))) ∧
  (let s' := (refresh api s).1 in
   effects s' = effects s ++ persist_step s' ++ [DidUpdate] ∧
   dataStore s'
     = ds_setItem (dataStore s) "users"
         (JSON_stringify ((λ a, Account.withToken a "") <$> accounts s'))) ∧
  (let loaded := awaitLoading (constructor ds ss) in
   Forall (λ e, is_write e = false) (effects loaded) ∧
   dataStore loaded = ds).
Proof.
  split_and!.
  - intros ss' u Hgate Hset. cbv zeta.
    rewrite (addAccount_success api account s ss' u) by done. cbn [fst].
    by destruct (save_spec (set_accounts
         (accounts (awaitLoading s) ++ [tryUpdateAccount api account])
         (set_secureStore ss' (awaitLoading s)))) as (-> & -> & -> & _).
  - intros ss' u Hgate Hdel. cbv zeta.
    rewrite (removeAccount_success account s ss' u) by done. cbn [fst].
    by destruct (save_spec (set_accounts
         (filter (λ a, Account.id a ≠ Account.id account)
            (accounts (awaitLoading s)))
         (set_secureStore ss' (awaitLoading s)))) as (-> & -> & -> & _).
  - cbv zeta. unfold refresh, refresh_end, refresh_begin. cbn [fst].
    unfold emitUpdate, save, perform, persist_step. cbn.
    by rewrite <- !app_assoc.
  - cbv zeta. destruct (constructor_quiet ds ss) as [Hq Hds].
    destruct (awaitLoading_quiet (constructor ds ss)) as (extra & -> & Hx).
    split; [by apply Forall_app|].
    by rewrite awaitLoading_dataStore.
Qed.

Lemma quiet_stripped s s' :
  quiet s s' →
  Forall stripped_write (effects s) → Forall stripped_write (effects s').
Proof.
  intros (extra & -> & Hq) Hs. apply Forall_app. split; [done|].
  eapply Forall_impl; [exact Hq|]. by intros [].
Qed.

Lemma save_stripped s :
  Forall stripped_write (effects s) → Forall stripped_write (effects (save s)).
Proof.
  intros Hs. destruct (save_spec s) as (-> & _ & Hacc & _).
  apply Forall_app. split; [done|].
  unfold persist_step. repeat constructor.
  eexists. split; [reflexivity|].
  apply Forall_fmap, Forall_forall. done.
Qed.

Lemma perform_stripped e s :
  is_write e = false →
  Forall stripped_write (effects s) →
  Forall stripped_write (effects (perform e s)).
Proof.
  intros He Hs. apply (quiet_stripped s); [|done].
  exists [e]. split; [done|by repeat constructor].
Qed.

Lemma call_stripped s c :
  Forall stripped_write (effects s) →
  Forall stripped_write (effects (call s c)).
Proof.
  intros Hs.
  pose proof (quiet_stripped _ _ (awaitLoading_quiet s) Hs) as Hs0.
  destruct c as [|api account|account|api|]; cbn [call].
  - unfold getAll, gated. by destruct (loadingPromise (awaitLoading s)).
  - unfold addAccount, gated.
    destruct (loadingPromise (awaitLoading s)); try done;
      destruct (ss_setItem _ _ _ _) as [ss' [u|e]]; cbn [fst];
      by (apply save_stripped || apply perform_stripped).
  - unfold removeAccount, gated.
    destruct (loadingPromise (awaitLoading s)); try done;
      destruct (ss_deleteItem _ _ _) as [ss' [u|e]]; cbn [fst];
      by (apply save_stripped || apply perform_stripped).
  - unfold refresh, refresh_end. cbn [fst].
    apply perform_stripped; [done|]. by apply save_stripped.
  - by apply (quiet_stripped _ _ (resume_quiet s)).
Qed.

Lemma run_stripped calls s :
  Forall stripped_write (effects s) →
  Forall stripped_write (effects (run calls s)).
Proof.
  revert s. induction calls as [|c calls IH]; intros s Hs; [done|].
  cbn. apply IH. by apply call_stripped.
Qed.

(** C5: in every state the store reaches from its construction, through any
    calls and any scheduling of the load, each write it has issued to the
    data store went to [users] and carried records with empty tokens; and
    an [addAccount] whose credential write succeeds has written the token
    the caller gave under the key of the caller's login and endpoint, the
    stored account keeping that token in memory. *)
Theorem token_metadata_separation (ds : D) (ss : S) calls api account :
  let s := run calls (constructor ds ss) in
  Forall stripped_write (effects s) ∧
  (∀ ss' u,
     loadingPromise (awaitLoading s) = Resolved →
     ss_setItem (secureStore (awaitLoading s))
       (keyFor (Account.login account) (Account.endpoint account))
       (Account.login account) (Account.token account) = (ss', Ok u) →
     let s' := (addAccount api account s).1 in
     secureStore s' = ss' ∧
     accounts s' = accounts (awaitLoading s) ++ [tryUpdateAccount api account] ∧
     Account.token (tryUpdateAccount api account) = Account.token account ∧
     Forall stripped_write (effects s')).
Proof.
  cbv zeta.
  assert (Forall stripped_write (effects (run calls (constructor ds ss))))
    as Hs.
  { apply run_stripped. eapply Forall_impl; [apply constructor_quiet|].
    by intros []. }
  split; [done|].
  intros ss' u Hgate Hset.
  rewrite (addAccount_success api account _ ss' u) by done. cbn [fst].
  split_and!; try done.
  - apply tryUpdateAccount_keeps.
  - apply save_stripped. cbn.
    by apply (quiet_stripped _ _ (awaitLoading_quiet _)).
Qed.

(** *** Ids *)

Lemma ids_app l1 l2 : ids (l1 ++ l2) = ids l1 ++ ids l2.
Proof. apply fmap_app. Qed.

Lemma kept_ids (ss : S) rawAccounts :
  ids (omap kept (lookups ss rawAccounts)) `sublist_of` (IAccount.id <$> rawAccounts).
Proof.
  revert ss. induction rawAccounts as [|r rest IH]; intros ss; [done|].
  cbn [lookups]. destruct (ss_getItem ss _ _) as [ss' [token|e]]; cbn.
  - apply sublist_skip, IH.
  - apply sublist_cons, IH.
Qed.

(** Stored records with distinct ids load into accounts with distinct
    ids, whichever lookups fail. *)
Lemma distinct_records_load_apart (ss : S) rawAccounts :
  NoDup (IAccount.id <$> rawAccounts) →
  NoDup (ids (omap kept (lookups ss rawAccounts))).
Proof. intros Hnd. eapply sublist_NoDup; [exact Hnd|apply kept_ids]. Qed.

Lemma ids_apart_awaitLoading s : ids_apart s → ids_apart (awaitLoading s).
Proof.
  unfold awaitLoading, ids_apart.
  destruct (loadingPromise s) as [todo acc| |e] eqn:Hp; [|by rewrite Hp..].
  intros [_ Hnd].
  by destruct (loadLoop_spec s todo acc) as (-> & _ & _ & ->).
Qed.

Lemma ids_apart_resume s : ids_apart s → ids_apart (resume s).
Proof.
  unfold resume, ids_apart.
  destruct (loadingPromise s) as [[|r rest] acc| |e] eqn:Hp;
    [| |by rewrite Hp..].
  - intros [_ Hnd]. cbn. by rewrite app_nil_r in Hnd.
  - intros [Hacc Hnd].
    pose proof (loadRecord_spec s r acc) as Hone. cbv zeta in Hone.
    destruct (loadRecord s r acc) as [s1 acc1]. cbn [fst snd] in Hone.
    destruct Hone as (-> & _ & Hss1 & _ & Hacc1 & _).
    cbn [lookups] in Hnd.
    destruct (ss_getItem (secureStore s) _ _) as [ss1 outcome].
    cbn [fst snd] in Hss1.
    assert (NoDup (ids ((acc ++ option_list (kept (r, outcome)))
                          ++ omap kept (lookups ss1 rest)))) as Hnd'.
    { rewrite <- app_assoc.
      replace (option_list (kept (r, outcome)) ++ omap kept (lookups ss1 rest))
        with (omap kept ((r, outcome) :: lookups ss1 rest));
        [done | by destruct outcome]. }
    destruct rest as [|r' rest].
    + cbn. split; [|done]. cbn in Hnd'. by rewrite app_nil_r in Hnd'.
    + cbn. by rewrite Hacc1, Hss1.
Qed.

Lemma ids_apart_call s c :
  ids_apart s → keeps_ids_apart s c → ids_apart (call s c).
Proof.
  intros Hs Hc.
  pose proof (ids_apart_awaitLoading s Hs) as Hs0.
  destruct c as [|api account|account|api|]; cbn [call].
  - unfold getAll, gated. by destruct (loadingPromise (awaitLoading s)).
  - unfold addAccount, gated. fold (tryUpdateAccount api account).
    cbn [keeps_ids_apart] in Hc. cbv zeta in Hc.
    destruct (awaitLoading_settled s) as [Hr|(e & Hrej & Heq)].
    + rewrite Hr. specialize (Hc Hr).
      destruct (ss_setItem _ _ _ _) as [ss' [[]|e]]; cbn [fst].
      * unfold ids_apart. cbn. rewrite Hr. split; [|done].
        rewrite ids_app. apply NoDup_app. split_and!.
        -- apply Hs0.
        -- intros x Hx [->|[]%elem_of_nil]%elem_of_cons. by apply Hc.
        -- apply NoDup_singleton.
      * unfold ids_apart. cbn. rewrite Hr. split; [apply Hs0|done].
    + rewrite Heq, Hrej. cbn [fst]. by rewrite <- Heq.
  - unfold removeAccount, gated.
    destruct (awaitLoading_settled s) as [Hr|(e & Hrej & Heq)].
    + rewrite Hr.
      destruct (ss_deleteItem _ _ _) as [ss' [u|e]]; cbn [fst].
      * unfold ids_apart. cbn. rewrite Hr. split; [|done].
        eapply sublist_NoDup; [apply Hs0|].
        unfold ids. apply fmap_sublist, sublist_filter.
      * unfold ids_apart. cbn. rewrite Hr. split; [apply Hs0|done].
    + rewrite Heq, Hrej. cbn [fst]. by rewrite <- Heq.
  - unfold refresh, refresh_end, refresh_begin, ids_apart. cbn.
    destruct Hs as [Hacc Hp]. split; [exact Hc|done].
  - by apply ids_apart_resume.
Qed.

Lemma ids_apart_run calls s :
  ids_apart s → keeps_ids_apart_run s calls → ids_apart (run calls s).
Proof.
  revert s. induction calls as [|c calls IH]; intros s Hs Hrun; [done|].
  destruct Hrun as [Hc Hrest]. cbn. apply IH; [|done].
  by apply ids_apart_call.
Qed.

Lemma ids_apart_constructor (ds : D) (ss : S) :
  NoDup (ids (omap kept (lookups ss (storedRecords ds)))) →
  ids_apart (constructor ds ss).
Proof.
  unfold storedRecords, constructor, loadFromStore, ids_apart.
  cbn [dataStore].
  destruct (ds_getItem ds "users") as [[|c raw]|];
    [by split; [apply NoDup_nil_2|]..| |by split; [apply NoDup_nil_2|]].
  destruct (JSON_parse _) as [[|r rest]|e]; cbn;
    intros Hnd; (split; [apply NoDup_nil_2|done]).
Qed.

(** C9 (as the code behaves): the store never compares ids when it adds,
    loads or refreshes.  The list has no duplicate id in every state reached
    through calls made one after the other, in any scheduling of the load,
    when the stored records that the load keeps have distinct ids, each
    [addAccount] that appends stores an account whose id the list does not
    hold yet, and each [refresh] yields accounts with distinct ids;
    [removeAccount] and [getAll] need no condition. *)
Theorem ids_stay_apart (ds : D) (ss : S) calls :
  NoDup (ids (omap kept (lookups ss (storedRecords ds)))) →
  keeps_ids_apart_run (constructor ds ss) calls →
  NoDup (ids (accounts (run calls (constructor ds ss)))).
Proof.
  intros Hstored Hrun.
  apply (ids_apart_run calls (constructor ds ss)); [|done].
  by apply ids_apart_constructor.
Qed.

End StoreFacts.

(** ** The facts at work on the test doubles *)

Import Fixtures.

(** C1: the claim says that every public operation waits for the load,
    [refresh] included.  [getAll], [addAccount] and [removeAccount] do;
    [refresh] maps over the list as it is when it is called.  Called right
    after the construction of a store whose data store holds alice's record,
    it works on the empty list while [getAll] answers with alice; it
    installs the empty list and writes it over alice's record.  If the load
    finished while [refresh] was suspended, alice is gone from memory too;
    if the load finishes later, alice is in memory and not in the data
    store. *)
Theorem refresh_runs_before_the_load :
  let s := constructor aliceStored keychain in
  loadingPromise s = Pending [aliceRecord] [] ∧
  (getAll s).2 = Ok [alice] ∧
  refresh_begin online s = [] ∧
  accounts (refresh online s).1 = [] ∧
  effects (refresh online s).1
    = [DataSetItem "users" "[]"; DidUpdate; DidUpdate] ∧
  dataStore (refresh online s).1 !! "users" = Some "[]" ∧
  accounts (resume s) = [alice] ∧
  accounts (refresh_end (refresh_begin online s) (resume s)) = [] ∧
  accounts (awaitLoading (refresh online s).1) = [alice] ∧
  dataStore (awaitLoading (refresh online s).1) !! "users" = Some "[]".
Proof. cbv zeta. split_and!; by vm_compute. Qed.

(** C2, at an account with a token for which the service answers with no
    email. *)
Lemma updatedAccount_empty_emails_witness :
  updatedAccount noEmails alice
    = Throw (typeError "Cannot read property 'email' of undefined") ∧
  tryUpdateAccount noEmails alice = alice.
Proof.
  apply (updatedAccount_empty_emails_throws noEmails alice
           (mkUser 7 "Renamed" "https://avatars.example.com/u/7"));
    [discriminate | reflexivity | reflexivity].
Defined.

(** C3, at a store that has loaded alice and whose keychain takes no write:
    adding bob fails and leaves alice alone. *)
Lemma addAccount_setItem_failure_witness :
  let s := constructor aliceStored readOnlyKeychain in
  accounts (awaitLoading s) = [alice] ∧
  effects (addAccount offline bob s).1
    = effects (awaitLoading s) ++ [DidError keychainError] ∧
  accounts (addAccount offline bob s).1 = accounts (awaitLoading s) ∧
  dataStore (addAccount offline bob s).1 = dataStore (awaitLoading s) ∧
  (addAccount offline bob s).2 = Ok ().
Proof.
  cbv zeta. split; [reflexivity|].
  apply (addAccount_setItem_failure offline bob
           (constructor aliceStored readOnlyKeychain) readOnlyKeychain
           keychainError); reflexivity.
Defined.

(** C4, at the same store: removing alice fails and alice stays. *)
Lemma removeAccount_deleteItem_failure_witness :
  let s := constructor aliceStored readOnlyKeychain in
  accounts (awaitLoading s) = [alice] ∧
  effects (removeAccount alice s).1
    = effects (awaitLoading s) ++ [DidError keychainError] ∧
  accounts (removeAccount alice s).1 = accounts (awaitLoading s) ∧
  dataStore (removeAccount alice s).1 = dataStore (awaitLoading s) ∧
  (removeAccount alice s).2 = Ok ().
Proof.
  cbv zeta. split; [reflexivity|].
  apply (removeAccount_deleteItem_failure alice
           (constructor aliceStored readOnlyKeychain) readOnlyKeychain
           keychainError); reflexivity.
Defined.

(** C5, at a store that has added bob: its one write is stripped, and adding
    alice puts her token in the keychain under her key. *)
Lemma token_metadata_separation_witness :
  let s := run [CallAddAccount online bob] (constructor noData emptyKeychain) in
  let s' := (addAccount offline alice s).1 in
  Forall stripped_write (effects s) ∧
  vault (secureStore s') !! aliceKey = Some "s3cret" ∧
  accounts s' = accounts (awaitLoading s) ++ [alice] ∧
  Forall stripped_write (effects s').
Proof.
  cbv zeta.
  destruct (token_metadata_separation noData emptyKeychain
              [CallAddAccount online bob] offline alice) as [Hwrites Hadd].
  split; [exact Hwrites|].
  destruct (Hadd (mkKeychain (<[aliceKey := "s3cret"]>
                                (<[bobKey := "hunter2"]> ∅)) [] false) ()
              eq_refl eq_refl) as (Hss & Hacc & _ & Hwrites').
  split_and!; [by rewrite Hss | exact Hacc | exact Hwrites'].
Defined.

(** C6, at a store holding alice and bob while the service answers for
    alice with a new name and no email: both fetches succeed and alice is
    as she was, name included. *)
Lemma refresh_position_by_fetch_outcome_witness :
  let s := awaitLoading (constructor bothStored keychain) in
  accounts s = [alice; bob] ∧
  fetchAccount noEmails alice
    = Ok (mkUser 7 "Renamed" "https://avatars.example.com/u/7") ∧
  fetchEmails noEmails alice = Ok [] ∧
  accounts (refresh noEmails s).1 !! 0%nat = Some alice ∧
  length (accounts (refresh noEmails s).1) = 2%nat.
Proof.
  cbv zeta. split_and!; [reflexivity..| |].
  - destruct (refresh_position_by_fetch_outcome noEmails
                (awaitLoading (constructor bothStored keychain)) 0%nat alice)
      as (_ & _ & _ & _ & Hempty); [reflexivity | discriminate |].
    by apply (Hempty (mkUser 7 "Renamed" "https://avatars.example.com/u/7")).
  - destruct (refresh_position_by_fetch_outcome noEmails
                (awaitLoading (constructor bothStored keychain)) 0%nat alice)
      as (Hlen & _); [reflexivity | discriminate |].
    exact Hlen.
Defined.

(** C7, at a data store holding alice and bob and a keychain that fails for
    bob: alice is loaded with her token, bob is left out, his error is
    emitted. *)
Lemma load_isolates_failed_lookups_witness :
  let s := awaitLoading (constructor bothStored jammedKeychain) in
  accounts s = [alice] ∧
  effects s = [DidError keychainError; DidUpdate] ∧
  loadingPromise s = Resolved.
Proof.
  cbv zeta.
  destruct (load_isolates_failed_lookups bothStored jammedKeychain
              (stringify [Account.withToken alice ""; Account.withToken bob ""])
              [aliceRecord; bobRecord])
    as (_ & Hacc & Heff & Hp & _); [reflexivity | discriminate | reflexivity |].
  split_and!; [exact Hacc | exact Heff | exact Hp].
Defined.

(** C8: the claim counts the initial load among the steps followed by the
    persist step.  The load of alice and bob with a keychain that fails for
    bob ends with alice alone in the list, an error and an update emitted,
    and no write: the persist step for that list is nowhere in the effects,
    and the data store still holds both records. *)
Lemma load_does_not_persist :
  let loaded := awaitLoading (constructor bothStored jammedKeychain) in
  accounts loaded = [alice] ∧
  loadingPromise loaded = Resolved ∧
  effects loaded = [DidError keychainError; DidUpdate] ∧
  dataStore loaded = bothStored ∧
  ¬ ∃ before after,
      effects loaded = before ++ persist_step loaded ++ after.
Proof.
  cbv zeta. split_and!; try reflexivity.
  intros (before & after & Heq).
  assert (Forall (λ e, is_write e = false)
            (effects (awaitLoading (constructor bothStored jammedKeychain))))
    as Hquiet by (by repeat constructor).
  rewrite Heq in Hquiet.
  apply Forall_app in Hquiet as [_ Hquiet].
  apply Forall_app in Hquiet as [Hquiet _].
  by inversion Hquiet.
Qed.

(** C8, at an empty store and keychain: adding alice ends with the write
    of the stripped list and the update notification. *)
Lemma persist_follows_mutations_witness :
  let s := constructor noData emptyKeychain in
  effects (addAccount offline alice s).1
    = [DataSetItem "users" (stringify [Account.withToken alice ""]);
       DidUpdate] ∧
  dataStore (addAccount offline alice s).1 !! "users"
    = Some (stringify [Account.withToken alice ""]).
Proof.
  cbv zeta.
  destruct (persist_follows_mutations offline alice
              (constructor noData emptyKeychain) noData emptyKeychain)
    as (Hadd & _).
  destruct (Hadd (mkKeychain (<[aliceKey := "s3cret"]> ∅) [] false) ()
              eq_refl eq_refl) as [Heff Hds].
  split; [by rewrite Heff | by rewrite Hds].
Defined.

(** C9: the claim says that no reachable state holds two accounts with one
    id.  Adding alice twice to an empty store, the service answering each
    time, gives a list that holds her twice.  Refreshing a store that holds
    alice and bob while the service answers for both with the user of id 11
    gives two accounts with id 11.  Loading a data store that holds alice's
    record twice gives a list that holds her twice. *)
Lemma duplicate_ids_are_reachable :
  (let s := run [CallAddAccount online alice; CallAddAccount online alice]
                (constructor noData emptyKeychain) in
   ids (accounts s) = [7%Z; 7%Z] ∧ ¬ NoDup (ids (accounts s))) ∧
  (let s := run [CallGetAll; CallRefresh knowsCarol]
                (constructor bothStored keychain) in
   ids (accounts s) = [11%Z; 11%Z] ∧ ¬ NoDup (ids (accounts s))) ∧
  (let s := run [CallGetAll] (constructor twiceStored keychain) in
   ids (accounts s) = [7%Z; 7%Z] ∧ ¬ NoDup (ids (accounts s))).
Proof.
  assert (∀ n : Z, ¬ NoDup [n; n]) as Htwice.
  { intros n [Hnotin _]%NoDup_cons. apply Hnotin. by left. }
  cbv zeta. split_and!; try reflexivity.
  - change (¬ NoDup [7%Z; 7%Z]). apply Htwice.
  - change (¬ NoDup [11%Z; 11%Z]). apply Htwice.
  - change (¬ NoDup [7%Z; 7%Z]). apply Htwice.
Qed.

(** C9, at a run from a data store holding alice: carol is added while the
    network is down, with id 0; a refresh gives her id 11; alice is
    removed. *)
Lemma ids_stay_apart_witness :
  let s := run [CallAddAccount offline carol; CallRefresh directory;
                CallRemoveAccount alice]
               (constructor aliceStored keychain) in
  ids (accounts (run [CallAddAccount offline carol]
                   (constructor aliceStored keychain))) = [7%Z; 0%Z] ∧
  ids (accounts (run [CallAddAccount offline carol; CallRefresh directory]
                   (constructor aliceStored keychain))) = [7%Z; 11%Z] ∧
  ids (accounts s) = [11%Z] ∧
  NoDup (ids (accounts s)).
Proof.
  cbv zeta. split_and!; [reflexivity..|].
  apply (ids_stay_apart aliceStored keychain
           [CallAddAccount offline carol; CallRefresh directory;
            CallRemoveAccount alice]).
  - change (NoDup [7%Z]). apply NoDup_singleton.
  - cbn [keeps_ids_apart_run]. split_and!; [| |exact I|exact I].
    + intros _ _. change (0%Z ∉ [7%Z]).
      intros [Heq|[]%elem_of_nil]%elem_of_cons. discriminate Heq.
    + change (NoDup [7%Z; 11%Z]).
      apply NoDup_cons. split; [|apply NoDup_singleton].
      intros [Heq|[]%elem_of_nil]%elem_of_cons. discriminate Heq.
Defined.

(** C10, at a store that holds alice twice and bob: one removal of alice
    leaves bob alone. *)
Lemma removeAccount_drops_every_match_witness :
  let s := run [CallAddAccount offline alice; CallAddAccount offline alice;
                CallAddAccount offline bob]
               (constructor noData emptyKeychain) in
  accounts s = [alice; alice; bob] ∧
  accounts (removeAccount alice s).1 = [bob].
Proof.
  cbv zeta. split; [reflexivity|].
  destruct (removeAccount_drops_every_match alice
              (run [CallAddAccount offline alice; CallAddAccount offline alice;
                    CallAddAccount offline bob]
                 (constructor noData emptyKeychain))
              (mkKeychain (<[bobKey := "hunter2"]> ∅) [] false) ())
    as (_ & _ & _ & Hfilter); [reflexivity | reflexivity |].
  by rewrite Hfilter.
Defined.

(** ** The load and its schedule *)

Section Scheduling.
Context {D S : Type} `{!IDataStore D, !ISecureStore S, !Platform}.
Implicit Types (s : AccountsStore D S) (api : API) (account : Account.t).

Lemma run_app calls1 calls2 s :
  run (calls1 ++ calls2) s = run calls2 (run calls1 s).
Proof. apply fold_left_app. Qed.

Lemma settled_awaitLoading s : settled s → awaitLoading s = s.
Proof.
  unfold settled, awaitLoading. by destruct (loadingPromise s).
Qed.

Lemma settled_resume s : settled s → resume s = s.
Proof.
  unfold settled, resume. by destruct (loadingPromise s).
Qed.

Lemma awaitLoading_is_settled s : settled (awaitLoading s).
Proof.
  unfold settled.
  destruct (awaitLoading_settled s) as [->|(e & Hrej & ->)]; [done|].
  by rewrite Hrej.
Qed.

Lemma ticks_settled k s : settled s → run (ticks k) s = s.
Proof.
  intros Hs. induction k as [|k IH]; [done|].
  cbn. by rewrite settled_resume.
Qed.

Lemma awaitLoading_ticks k s : awaitLoading (run (ticks k) s) = awaitLoading s.
Proof.
  revert s. induction k as [|k IH]; intros s; [done|].
  cbn. change (awaitLoading (run (ticks k) (resume s)) = awaitLoading s).
  by rewrite IH, awaitLoading_resume.
Qed.

(** One turn of the scheduler on a load with more than one record left. *)
Lemma resume_pending s r r' rest acc :
  loadingPromise s = Pending (r :: r' :: rest) acc →
  let outcome := ss_getItem (secureStore s)
                   (getKeyForAccount (accountWithoutToken r))
                   (IAccount.login r) in
  loadingPromise (resume s)
    = Pending (r' :: rest) (acc ++ option_list (kept (r, outcome.2))) ∧
  accounts (resume s) = accounts s ∧
  secureStore (resume s) = outcome.1.
Proof.
  intros Hp. cbv zeta. unfold resume. rewrite Hp.
  pose proof (loadRecord_spec s r acc) as Hone. cbv zeta in Hone.
  destruct (loadRecord s r acc) as [s1 acc1]. cbn [fst snd] in Hone.
  destruct Hone as (-> & _ & Hss & _ & Hacc & _).
  cbn. by rewrite Hss, Hacc.
Qed.

Lemma ticks_pending k s todo acc :
  loadingPromise s = Pending todo acc →
  k < length todo →
  accounts (run (ticks k) s) = accounts s ∧
  loadingPromise (run (ticks k) s)
    = Pending (drop k todo)
        (acc ++ omap kept (lookups (secureStore s) (take k todo))).
Proof.
  revert s todo acc. induction k as [|k IH]; intros s todo acc Hp Hk.
  { cbn. by rewrite drop_0, take_0, app_nil_r. }
  destruct todo as [|r [|r' rest]]; cbn in Hk; [lia..|].
  destruct (resume_pending s r r' rest acc Hp) as (Hp' & Hacc & Hss).
  change (run (ticks (Datatypes.S k)) s) with (run (ticks k) (resume s)).
  destruct (IH (resume s) _ _ Hp') as [-> ->]; [cbn; lia|].
  split; [done|]. rewrite Hss. cbn [drop take lookups].
  destruct (ss_getItem (secureStore s) _ _) as [ss1 outcome]. cbn [fst snd].
  rewrite <- app_assoc. do 2 f_equal. by destruct outcome.
Qed.

Lemma ticks_done s todo acc :
  loadingPromise s = Pending todo acc →
  todo ≠ [] →
  run (ticks (length todo)) s = awaitLoading s.
Proof.
  revert s acc. induction todo as [|r rest IH]; intros s acc Hp Hne; [done|].
  change (run (ticks (length (r :: rest))) s)
    with (run (ticks (length rest)) (resume s)).
  destruct rest as [|r' rest].
  - cbn. unfold resume, awaitLoading, loadLoop. rewrite Hp. cbn [loadRecords].
    by destruct (loadRecord s r acc).
  - destruct (resume_pending s r r' rest acc Hp) as (Hp' & _).
    rewrite (IH (resume s) _ Hp') by done.
    apply awaitLoading_resume.
Qed.

(** X1: while the load is suspended with records left to look up, no turn
    of the scheduler shows a partial list: the accounts collected so far
    stay in the continuation and [accounts] is as it was, until the turn
    that looks up the last record installs the whole list.  The load takes
    one turn per record, and further turns change nothing. *)
Theorem load_installs_nothing_until_done k s todo acc :
  loadingPromise s = Pending todo acc →
  todo ≠ [] →
  (k < length todo →
     accounts (run (ticks k) s) = accounts s ∧
     loadingPromise (run (ticks k) s)
       = Pending (drop k todo)
           (acc ++ omap kept (lookups (secureStore s) (take k todo)))) ∧
  ((length todo ≤ k)%nat → run (ticks k) s = awaitLoading s).
Proof.
  intros Hp Hne. split.
  - intros Hk. by apply ticks_pending.
  - intros Hk.
    replace k with (length todo + (k - length todo)) by lia.
    unfold ticks. rewrite replicate_add, run_app.
    fold (ticks (length todo)). fold (ticks (k - length todo)).
    rewrite (ticks_done s todo acc) by done.
    apply ticks_settled, awaitLoading_is_settled.
Qed.

(** X2: [getAll], [addAccount] and [removeAccount] do not depend on how far
    the load has got when they are called: after any number of turns of the
    scheduler they return the same result and leave the same store as when
    called at once. *)
Theorem gated_operations_ignore_the_schedule k api account s :
  getAll (run (ticks k) s) = getAll s ∧
  addAccount api account (run (ticks k) s) = addAccount api account s ∧
  removeAccount account (run (ticks k) s) = removeAccount account s.
Proof.
  unfold getAll, addAccount, removeAccount, gated.
  by rewrite awaitLoading_ticks.
Qed.

Lemma settled_call s c :
  settled s → loadingPromise (call s c) = loadingPromise s.
Proof.
  intros Hs. destruct c as [|api account|account|api|]; cbn [call].
  - unfold getAll, gated. rewrite settled_awaitLoading by done.
    by destruct (loadingPromise s) eqn:Hp.
  - unfold addAccount, gated. rewrite settled_awaitLoading by done.
    destruct (loadingPromise s) eqn:Hp; try done;
      destruct (ss_setItem _ _ _ _) as [ss' [u|e]]; cbn; by rewrite Hp.
  - unfold removeAccount, gated. rewrite settled_awaitLoading by done.
    destruct (loadingPromise s) eqn:Hp; try done;
      destruct (ss_deleteItem _ _ _) as [ss' [u|e]]; cbn; by rewrite Hp.
  - done.
  - by rewrite settled_resume.
Qed.

(** X3: the loading promise settles once.  From a store whose load has
    resolved or rejected, no sequence of calls and scheduler turns changes
    the promise: a rejected load stays rejected, a resolved one resolved. *)
Theorem loading_promise_settles_once calls s :
  settled s →
  loadingPromise (run calls s) = loadingPromise s ∧ settled (run calls s).
Proof.
  revert s. induction calls as [|c calls IH]; intros s Hs; [done|].
  change (run (c :: calls) s) with (run calls (call s c)).
  pose proof (settled_call s c Hs) as Hc.
  assert (settled (call s c)) as Hs' by (unfold settled; by rewrite Hc).
  destruct (IH _ Hs') as [-> Hfinal]. by rewrite Hc.
Qed.

End Scheduling.

(** ** A data store that does not parse *)

Section CorruptData.
Context {D S : Type} `{!IDataStore D, !ISecureStore S, !Platform}.
Implicit Types (s : AccountsStore D S) (api : API) (account : Account.t).

Lemma gated_on_rejected {A} s
    (body : AccountsStore D S → AccountsStore D S * Result A) e :
  loadingPromise s = Rejected e → gated s body = (s, Throw e).
Proof.
  intros Hp. unfold gated. by rewrite (awaitLoading_rejected s e Hp), Hp.
Qed.

Lemma rejected_call s c e (ss : S) :
  loadingPromise s = Rejected e →
  accounts s = [] →
  secureStore s = ss →
  Forall (λ x, is_error x = false) (effects s) →
  loadingPromise (call s c) = Rejected e ∧
  accounts (call s c) = [] ∧
  secureStore (call s c) = ss ∧
  Forall (λ x, is_error x = false) (effects (call s c)).
Proof.
  intros Hp Hacc Hss Heff.
  destruct c as [|api account|account|api|]; cbn [call].
  - unfold getAll. by rewrite (gated_on_rejected _ _ e).
  - unfold addAccount. by rewrite (gated_on_rejected _ _ e).
  - unfold removeAccount. by rewrite (gated_on_rejected _ _ e).
  - unfold refresh, refresh_end, refresh_begin. rewrite Hacc. cbn.
    split_and!; try done.
    rewrite <- !app_assoc. apply Forall_app. split; [done|].
    by repeat constructor.
  - unfold resume. by rewrite Hp.
Qed.

(** X4: when the text stored under [users] does not parse, the load
    rejects with the parser's error, and it stays that way: after any calls
    [getAll], [addAccount] and [removeAccount] reject with that error, the
    list is empty, the credential store has never been called, and no error
    notification has been emitted. *)
Theorem corrupt_data_rejects_gated_operations
    (ds : D) (ss : S) raw e calls api account :
  ds_getItem ds "users" = Some raw →
  raw ≠ "" →
  JSON_parse raw = Throw e →
  let s := run calls (constructor ds ss) in
  loadingPromise s = Rejected e ∧
  accounts s = [] ∧
  secureStore s = ss ∧
  Forall (λ x, is_error x = false) (effects s) ∧
  getAll s = (s, Throw e) ∧
  addAccount api account s = (s, Throw e) ∧
  removeAccount account s = (s, Throw e).
Proof.
  intros Hget Hraw Hparse. cbv zeta.
  assert (∀ calls s,
            loadingPromise s = Rejected e → accounts s = [] →
            secureStore s = ss →
            Forall (λ x, is_error x = false) (effects s) →
            loadingPromise (run calls s) = Rejected e ∧
            accounts (run calls s) = [] ∧
            secureStore (run calls s) = ss ∧
            Forall (λ x, is_error x = false) (effects (run calls s)))
    as Hrun.
  { clear. intros calls. induction calls as [|c calls IH]; intros s; [done|].
    intros Hp Hacc Hss Heff.
    destruct (rejected_call s c e ss Hp Hacc Hss Heff) as (? & ? & ? & ?).
    change (run (c :: calls) s) with (run calls (call s c)). by apply IH. }
  destruct (Hrun calls (constructor ds ss)) as (Hp & Hacc & Hss & Heff).
  { unfold constructor, loadFromStore. cbn [dataStore]. rewrite Hget.
    destruct raw; [done|]. by rewrite Hparse. }
  { apply constructor_accounts. }
  { unfold constructor, loadFromStore. cbn [dataStore]. rewrite Hget.
    destruct raw; [done|]. by rewrite Hparse. }
  { unfold constructor, loadFromStore. cbn [dataStore]. rewrite Hget.
    destruct raw; [done|]. by rewrite Hparse. }
  split_and!; try done.
  - unfold getAll. by rewrite (gated_on_rejected _ _ e).
  - unfold addAccount. by rewrite (gated_on_rejected _ _ e).
  - unfold removeAccount. by rewrite (gated_on_rejected _ _ e).
Qed.

End CorruptData.

(** ** Identity, and how the operations compose *)

Section Composition.
Context {D S : Type} `{!IDataStore D, !ISecureStore S, !Platform}.
Implicit Types (s : AccountsStore D S) (api : API) (account : Account.t).

Lemma filter_other_ids (l : list Account.t) (n : Z) :
  n ∉ ids l → filter (λ a, Account.id a ≠ n) l = l.
Proof.
  induction l as [|a l IH]; [done|].
  intros Hn. rewrite filter_cons_True.
  - f_equal. apply IH. intros Hin. apply Hn. by right.
  - intros Heq. apply Hn. rewrite <- Heq. by left.
Qed.

Lemma addAccount_resolved api account s ss u :
  loadingPromise (awaitLoading s) = Resolved →
  ss_setItem (secureStore (awaitLoading s)) (getKeyForAccount account)
    (Account.login account) (Account.token account) = (ss, Ok u) →
  let s' := (addAccount api account s).1 in
  loadingPromise s' = Resolved ∧
  awaitLoading s' = s' ∧
  secureStore s' = ss ∧
  accounts s' = accounts (awaitLoading s) ++ [tryUpdateAccount api account].
Proof.
  intros Hgate Hset. cbv zeta.
  rewrite (addAccount_success api account s ss u) by done. cbn [fst].
  assert (loadingPromise
            (save (set_accounts
                     (accounts (awaitLoading s) ++ [tryUpdateAccount api account])
                     (set_secureStore ss (awaitLoading s)))) = Resolved) as Hp
    by (by cbn).
  split_and!; try done. by apply awaitLoading_resolved.
Qed.

(** X5: [refresh] never changes who an account is: position by position
    the logins, endpoints and tokens after a refresh are those before it,
    whatever the service answered, so every account keeps its key in the
    credential store; and [refresh] does not call the credential store. *)
Theorem refresh_keeps_identity_and_tokens api s :
  let s' := (refresh api s).1 in
  Account.login <$> accounts s' = Account.login <$> accounts s ∧
  Account.endpoint <$> accounts s' = Account.endpoint <$> accounts s ∧
  Account.token <$> accounts s' = Account.token <$> accounts s ∧
  getKeyForAccount <$> accounts s' = getKeyForAccount <$> accounts s ∧
  secureStore s' = secureStore s.
Proof.
  cbv zeta.
  change (accounts (refresh api s).1)
    with (tryUpdateAccount api <$> accounts s).
  rewrite <- !list_fmap_compose.
  split_and!; try done; apply list_fmap_ext; intros i a _; cbn.
  - apply tryUpdateAccount_keeps.
  - apply tryUpdateAccount_keeps.
  - apply tryUpdateAccount_keeps.
  - apply tryUpdateAccount_key.
Qed.

(** X6: an account held with an empty token is never updated by [refresh]:
    the per-account refresh stops at the token check, before any request,
    and the account stays in its place as it is, whatever the service
    would have answered. *)
Theorem tokenless_accounts_are_not_refreshed api s i a :
  accounts s !! i = Some a →
  Account.token a = "" →
  accounts (refresh api s).1 !! i = Some a ∧
  updatedAccount api a
    = Throw (mkError "Error"
        "Cannot update an account which doesn't have a token: [object Object]").
Proof.
  intros Hi Htoken.
  assert (updatedAccount api a
    = Throw (mkError "Error"
        "Cannot update an account which doesn't have a token: [object Object]"))
    as Hthrow.
  { unfold updatedAccount. by rewrite Htoken. }
  split; [|done].
  change (accounts (refresh api s).1)
    with (tryUpdateAccount api <$> accounts s).
  rewrite list_lookup_fmap, Hi. cbn.
  unfold tryUpdateAccount. by rewrite Hthrow.
Qed.

(** X7: a failure of the network during [addAccount] is not an error of the
    store.  When the per-account refresh throws and the credential store
    takes the token, the account is added exactly as the caller gave it, the
    list is persisted, and the only effects are the write and the update
    notification: no error notification is emitted and the method resolves. *)
Theorem addAccount_survives_network_failure api account s ss u e :
  loadingPromise (awaitLoading s) = Resolved →
  updatedAccount api account = Throw e →
  ss_setItem (secureStore (awaitLoading s)) (getKeyForAccount account)
    (Account.login account) (Account.token account) = (ss, Ok u) →
  let s' := (addAccount api account s).1 in
  accounts s' = accounts (awaitLoading s) ++ [account] ∧
  effects s' = effects (awaitLoading s) ++ persist_step s' ∧
  Forall (λ x, is_error x = false) (persist_step s') ∧
  secureStore s' = ss ∧
  (addAccount api account s).2 = Ok ().
Proof.
  intros Hgate Hthrow Hset. cbv zeta.
  rewrite (addAccount_success api account s ss u) by done. cbn [fst snd].
  assert (tryUpdateAccount api account = account) as ->
    by (unfold tryUpdateAccount; by rewrite Hthrow).
  destruct (save_spec (set_accounts (accounts (awaitLoading s) ++ [account])
                         (set_secureStore ss (awaitLoading s))))
    as (Heff & _ & Hacc & Hss & _).
  split_and!; try done. by repeat constructor.
Qed.

(** X8: adding an account and then removing the account that was stored
    gives back the list there was before, when the stored account's id was
    not in it: the filter of [removeAccount] takes out the new account and
    nothing else, and the credential store ends as the deletion left it. *)
Theorem add_then_remove_restores_the_list api account s ss1 ss2 u1 u2 :
  loadingPromise (awaitLoading s) = Resolved →
  ss_setItem (secureStore (awaitLoading s)) (getKeyForAccount account)
    (Account.login account) (Account.token account) = (ss1, Ok u1) →
  ss_deleteItem ss1 (getKeyForAccount account) (Account.login account)
    = (ss2, Ok u2) →
  Account.id (tryUpdateAccount api account) ∉ ids (accounts (awaitLoading s)) →
  let stored := tryUpdateAccount api account in
  let s1 := (addAccount api account s).1 in
  let s2 := (removeAccount stored s1).1 in
  accounts s1 = accounts (awaitLoading s) ++ [stored] ∧
  accounts s2 = accounts (awaitLoading s) ∧
  secureStore s2 = ss2.
Proof.
  intros Hgate Hset Hdel Hfresh. cbv zeta.
  destruct (addAccount_resolved api account s ss1 u1 Hgate Hset)
    as (Hp1 & Hs1 & Hss1 & Hacc1).
  split; [done|].
  rewrite (removeAccount_success _ _ ss2 u2).
  - cbn. rewrite Hs1, Hacc1, filter_app, filter_other_ids by done.
    rewrite filter_cons_False by (by intros Hne).
    by rewrite filter_nil, app_nil_r.
  - by rewrite Hs1.
  - rewrite Hs1, Hss1, tryUpdateAccount_key.
    by destruct (tryUpdateAccount_keeps api account) as (-> & _).
Qed.

(** X9: removal matches by id, the credential store by login and endpoint.
    When the service gave the stored account an id other than the one in the
    caller's account, and no account holds the caller's id, removing the
    caller's account deletes the token from the credential store and leaves
    the stored account in the list. *)
Theorem remove_with_stale_id_keeps_the_account
    api account updated s ss1 ss2 u1 u2 :
  loadingPromise (awaitLoading s) = Resolved →
  updatedAccount api account = Ok updated →
  Account.id account ∉ ids (accounts (awaitLoading s)) →
  Account.id updated ≠ Account.id account →
  ss_setItem (secureStore (awaitLoading s)) (getKeyForAccount account)
    (Account.login account) (Account.token account) = (ss1, Ok u1) →
  ss_deleteItem ss1 (getKeyForAccount account) (Account.login account)
    = (ss2, Ok u2) →
  let s1 := (addAccount api account s).1 in
  let s2 := (removeAccount account s1).1 in
  accounts s2 = accounts (awaitLoading s) ++ [updated] ∧
  secureStore s2 = ss2.
Proof.
  intros Hgate Hok Hfresh Hne Hset Hdel. cbv zeta.
  destruct (addAccount_resolved api account s ss1 u1 Hgate Hset)
    as (Hp1 & Hs1 & Hss1 & Hacc1).
  assert (tryUpdateAccount api account = updated) as Hstored
    by (unfold tryUpdateAccount; by rewrite Hok).
  rewrite Hstored in Hacc1.
  rewrite (removeAccount_success _ _ ss2 u2).
  - cbn. rewrite Hs1, Hacc1, filter_app, filter_other_ids by done.
    by rewrite filter_cons_True, filter_nil by done.
  - by rewrite Hs1.
  - by rewrite Hs1, Hss1.
Qed.

End Composition.

(** ** Saving and loading again *)

Section Reload.
Context {D S : Type} `{!IDataStore D, !ISecureStore S, !Platform}.
Implicit Types (s : AccountsStore D S) (api : API) (account : Account.t).

Lemma awaitLoading_constructor (ds : D) (ss : S) raw rawAccounts :
  ds_getItem ds "users" = Some raw →
  raw ≠ "" →
  JSON_parse raw = Ok rawAccounts →
  accounts (awaitLoading (constructor ds ss))
    = omap kept (lookups ss rawAccounts) ∧
  effects (awaitLoading (constructor ds ss))
    = omap reported (lookups ss rawAccounts) ++ [DidUpdate] ∧
  loadingPromise (awaitLoading (constructor ds ss)) = Resolved.
Proof.
  intros Hget Hraw Hparse.
  unfold constructor, loadFromStore. cbn [dataStore]. rewrite Hget.
  destruct raw as [|c raw]; [done|]. rewrite Hparse.
  destruct rawAccounts as [|r rest].
  - by rewrite awaitLoading_resolved.
  - unfold awaitLoading. cbn [loadingPromise set_loadingPromise].
    pose proof (loadLoop_spec
                  (set_loadingPromise (Pending (r :: rest) [])
                     (mkStore ds ss [] Resolved [])) (r :: rest) []) as Hl.
    cbv zeta in Hl. by destruct Hl as (-> & -> & _ & ->).
Qed.

(** Reading back a record that was written without its token and putting
    the token back gives the account that was saved. *)
Lemma restore_token (a : Account.t) :
  Account.withToken (accountWithoutToken (toRecord (Account.withToken a "")))
    (or_else_null (Some (Account.token a)) "") = a.
Proof. destruct a as [l e t es av i n]. cbn. by destruct t. Qed.

Lemma kept_all (l : list Account.t)
    (ls : list (IAccount.t * Result (option string))) :
  ls.*1 = (λ a, toRecord (Account.withToken a "")) <$> l →
  ls.*2 = (λ a, Ok (Some (Account.token a))) <$> l →
  omap kept ls = l ∧ omap reported ls = [].
Proof.
  revert ls. induction l as [|a l IH]; intros [|[r o] ls]; try done.
  cbn. intros [= -> Hfst] [= -> Hsnd].
  destruct (IH ls Hfst Hsnd) as [Hk Hr].
  unfold kept at 1, reported at 1. cbn [fst snd].
  split; [|done].
  change (Account.withToken (accountWithoutToken (toRecord (Account.withToken a "")))
            (or_else_null (Some (Account.token a)) "") :: omap kept ls = a :: l).
  by rewrite restore_token, Hk.
Qed.

(** X10: saving and loading again is a round trip.  Take the data store as
    [save] left it, and a credential store that answers every lookup with
    the account's token.  If the data store gives back the text that was
    written and the parser reads it as the records that were serialized,
    a new store loads exactly the list that was saved, tokens included,
    with one update notification and no error. *)
Theorem reload_restores_the_saved_list s (ss : S) :
  let stripped := (λ a, Account.withToken a "") <$> accounts s in
  let blob := JSON_stringify stripped in
  ds_getItem (dataStore (save s)) "users" = Some blob →
  blob ≠ "" →
  JSON_parse blob = Ok (toRecord <$> stripped) →
  (lookups ss (toRecord <$> stripped)).*2
    = (λ a, Ok (Some (Account.token a))) <$> accounts s →
  let reloaded := awaitLoading (constructor (dataStore (save s)) ss) in
  accounts reloaded = accounts s ∧
  effects reloaded = [DidUpdate] ∧
  loadingPromise reloaded = Resolved.
Proof.
  cbv zeta. intros Hget Hblob Hparse Htokens.
  destruct (awaitLoading_constructor (dataStore (save s)) ss _ _
              Hget Hblob Hparse) as (-> & -> & ->).
  destruct (kept_all (accounts s)
              (lookups ss (toRecord <$>
                 ((λ a, Account.withToken a "") <$> accounts s))))
    as [-> ->]; try done.
  rewrite lookups_records. by rewrite <- list_fmap_compose.
Qed.

End Reload.

(** ** These facts at work on the test doubles *)

(** X1, at a data store holding alice and bob: after one turn alice is
    collected and not yet installed; the second turn ends the load. *)
Lemma load_installs_nothing_until_done_witness :
  let s := constructor bothStored keychain in
  accounts (run (ticks 1) s) = [] ∧
  loadingPromise (run (ticks 1) s) = Pending [bobRecord] [alice] ∧
  run (ticks 2) s = awaitLoading s ∧
  accounts (run (ticks 2) s) = [alice; bob].
Proof.
  cbv zeta.
  destruct (load_installs_nothing_until_done 1
              (constructor bothStored keychain) [aliceRecord; bobRecord] [])
    as [Hearly _]; [reflexivity | discriminate |].
  destruct (load_installs_nothing_until_done 2
              (constructor bothStored keychain) [aliceRecord; bobRecord] [])
    as [_ Hdone]; [reflexivity | discriminate |].
  destruct Hearly as [Hacc Hp]; [cbn; lia|].
  split_and!.
  - exact Hacc.
  - exact Hp.
  - apply Hdone. cbn. lia.
  - rewrite Hdone by (cbn; lia). reflexivity.
Defined.

(** X3, at a store that has loaded alice. *)
Lemma loading_promise_settles_once_witness :
  loadingPromise
    (run [CallAddAccount offline bob; Tick; CallRefresh online; CallGetAll;
          CallRemoveAccount alice]
       (awaitLoading (constructor aliceStored keychain))) = Resolved.
Proof.
  destruct (loading_promise_settles_once
              [CallAddAccount offline bob; Tick; CallRefresh online;
               CallGetAll; CallRemoveAccount alice]
              (awaitLoading (constructor aliceStored keychain)))
    as [Hp _]; [exact I | exact Hp].
Defined.

(** X4, at a data store whose text is cut short. *)
Lemma corrupt_data_rejects_gated_operations_witness :
  let s := run [CallRefresh online; Tick; CallGetAll]
               (constructor corruptStored keychain) in
  loadingPromise s = Rejected syntaxError ∧
  accounts s = [] ∧
  (getAll s).2 = Throw syntaxError ∧
  (addAccount offline alice s).2 = Throw syntaxError ∧
  (removeAccount alice s).2 = Throw syntaxError.
Proof.
  cbv zeta.
  destruct (corrupt_data_rejects_gated_operations corruptStored keychain
              "{oops" syntaxError [CallRefresh online; Tick; CallGetAll]
              offline alice)
    as (Hp & Hacc & _ & _ & Hget & Hadd & Hremove);
    [reflexivity | discriminate | reflexivity |].
  split_and!; [exact Hp | exact Hacc | | |].
  - by rewrite Hget.
  - by rewrite Hadd.
  - by rewrite Hremove.
Defined.

(** X6, at a store that loaded bob without a token, the keychain holding
    none for him: the service would rename him, and he stays as loaded. *)
Lemma tokenless_accounts_are_not_refreshed_witness :
  let s := awaitLoading
             (constructor bothStored
                (mkKeychain (<[aliceKey := "s3cret"]> ∅) [] false)) in
  accounts s !! 1%nat = Some (Account.withToken bob "") ∧
  accounts (refresh online s).1 !! 1%nat = Some (Account.withToken bob "").
Proof.
  cbv zeta. split; [reflexivity|].
  apply (tokenless_accounts_are_not_refreshed online
           (awaitLoading
              (constructor bothStored
                 (mkKeychain (<[aliceKey := "s3cret"]> ∅) [] false)))
           1%nat (Account.withToken bob "")); reflexivity.
Defined.

(** X7, at an empty store while the network is down. *)
Lemma addAccount_survives_network_failure_witness :
  let s := constructor noData emptyKeychain in
  accounts (addAccount offline alice s).1 = [alice] ∧
  effects (addAccount offline alice s).1
    = [DataSetItem "users" (stringify [Account.withToken alice ""]);
       DidUpdate] ∧
  vault (secureStore (addAccount offline alice s).1) !! aliceKey
    = Some "s3cret".
Proof.
  cbv zeta.
  destruct (addAccount_survives_network_failure offline alice
              (constructor noData emptyKeychain)
              (mkKeychain (<[aliceKey := "s3cret"]> ∅) [] false) ()
              networkError)
    as (Hacc & Heff & _ & Hss & _); [reflexivity..|].
  split_and!; [exact Hacc | by rewrite Heff | by rewrite Hss].
Defined.

(** X8, at a store that has loaded alice: carol is added, the service
    giving her id 11, and the stored carol is removed. *)
Lemma add_then_remove_restores_the_list_witness :
  let s := constructor aliceStored keychain in
  let stored := tryUpdateAccount knowsCarol carol in
  Account.id stored = 11%Z ∧
  accounts (removeAccount stored (addAccount knowsCarol carol s).1).1
    = [alice].
Proof.
  cbv zeta. split; [reflexivity|].
  destruct (add_then_remove_restores_the_list knowsCarol carol
              (constructor aliceStored keychain)
              (mkKeychain
                 (<[("GitHub - https://api.github.com", "carol") := "c4rol"]>
                    tokens) [] false)
              keychain () ())
    as (_ & Hacc & _); [reflexivity.. | | exact Hacc].
  change (11%Z ∉ [7%Z]).
  intros [Heq|[]%elem_of_nil]%elem_of_cons. discriminate Heq.
Defined.

(** X9, at the same store: carol is added with id 0 in the caller's hands
    and id 11 in the list; removing the caller's carol takes her token out
    of the keychain and leaves her in the list. *)
Lemma remove_with_stale_id_keeps_the_account_witness :
  let s := constructor aliceStored keychain in
  let s2 := (removeAccount carol (addAccount knowsCarol carol s).1).1 in
  Account.id <$> accounts s2 = [7%Z; 11%Z] ∧
  vault (secureStore s2) !! ("GitHub - https://api.github.com", "carol")
    = None.
Proof.
  cbv zeta.
  destruct (remove_with_stale_id_keeps_the_account knowsCarol carol
              (tryUpdateAccount knowsCarol carol)
              (constructor aliceStored keychain)
              (mkKeychain
                 (<[("GitHub - https://api.github.com", "carol") := "c4rol"]>
                    tokens) [] false)
              keychain () ())
    as (Hacc & Hss); [reflexivity | reflexivity | | discriminate
                      | reflexivity | reflexivity |].
  - change (0%Z ∉ [7%Z]).
    intros [Heq|[]%elem_of_nil]%elem_of_cons. discriminate Heq.
  - split; [by rewrite Hacc | by rewrite Hss].
Defined.

(** X10, at a store holding alice and bob: a new store over the data store
    it saved and the same keychain loads alice and bob. *)
Lemma reload_restores_the_saved_list_witness :
  let s := (addAccount offline bob (constructor aliceStored keychain)).1 in
  accounts s = [alice; bob] ∧
  accounts (awaitLoading (constructor (dataStore (save s)) keychain))
    = [alice; bob].
Proof.
  cbv zeta. split; [reflexivity|].
  destruct (reload_restores_the_saved_list
              (addAccount offline bob (constructor aliceStored keychain)).1
              keychain)
    as (Hacc & _); [reflexivity | discriminate | reflexivity | reflexivity |].
  exact Hacc.
Defined.

(** ** A data store with nothing to load *)

Section NothingStored.
Context {D S : Type} `{!IDataStore D, !ISecureStore S, !Platform}.

(** X11: with nothing to load the store is ready when the constructor
    returns, the credential store untouched.  When the key [users] is absent
    or holds the empty text, nothing at all is emitted; when it holds an
    empty array, one update notification is.  Either way [getAll] answers
    with the empty list and turns of the scheduler change nothing. *)
Theorem nothing_stored_loads_at_once (ds : D) (ss : S) k :
  (ds_getItem ds "users" = None ∨ ds_getItem ds "users" = Some "" →
   constructor ds ss = mkStore ds ss [] Resolved [] ∧
   getAll (constructor ds ss) = (constructor ds ss, Ok []) ∧
   run (ticks k) (constructor ds ss) = constructor ds ss) ∧
  (∀ raw, ds_getItem ds "users" = Some raw → raw ≠ "" →
          JSON_parse raw = Ok [] →
   constructor ds ss = mkStore ds ss [] Resolved [DidUpdate] ∧
   getAll (constructor ds ss) = (constructor ds ss, Ok []) ∧
   run (ticks k) (constructor ds ss) = constructor ds ss).
Proof.
  split.
  - intros Hget.
    assert (constructor ds ss = mkStore ds ss [] Resolved []) as ->.
    { unfold constructor, loadFromStore. cbn [dataStore].
      by destruct Hget as [-> | ->]. }
    split_and!; [done..|]. by apply ticks_settled.
  - intros raw Hget Hraw Hparse.
    assert (constructor ds ss = mkStore ds ss [] Resolved [DidUpdate]) as ->.
    { unfold constructor, loadFromStore. cbn [dataStore]. rewrite Hget.
      destruct raw; [done|]. by rewrite Hparse. }
    split_and!; [done..|]. by apply ticks_settled.
Qed.

End NothingStored.

(** X11, at an empty data store and at one that holds an empty array. *)
Lemma nothing_stored_loads_at_once_witness :
  constructor noData keychain = mkStore noData keychain [] Resolved [] ∧
  effects (constructor (<["users" := "[]"]> noData) keychain) = [DidUpdate] ∧
  (getAll (constructor (<["users" := "[]"]> noData) keychain)).2 = Ok [].
Proof.
  destruct (nothing_stored_loads_at_once noData keychain 3) as [Habsent _].
  destruct (nothing_stored_loads_at_once (<["users" := "[]"]> noData)
              keychain 3) as [_ Hempty].
  destruct Habsent as (Hnew & _); [by left|].
  destruct (Hempty "[]") as (Hnew' & Hget & _);
    [reflexivity | discriminate | reflexivity |].
  split_and!; [exact Hnew | by rewrite Hnew' | by rewrite Hget, Hnew'].
Defined.
